(** * Adaptive cluster expansion ([ClusterExpansion] in [solvers.py])

    A shallow embedding of the memoized entropy decomposition
    ([deltaS], "Algorithm 1"), of the subset enumeration ([subsets]),
    of the cluster identity ([clusterID]) and of the adaptive growth
    loop with its final assembly ([solve], "Algorithm 2").

    Conventions of the embedding.
    - Python integers are [Z]; a cluster is a [list Z].
    - Floating-point scalars are an abstract carrier with the
      operations the code applies to them (class [Scalar]); numpy
      vectors and matrices are lists and lists of lists of scalars.
    - The two memo dictionaries are [gmap]s keyed by the sorted index
      tuple; they are shared, mutated state, so the stateful methods
      live in a state-and-exception monad ([M]) whose state survives a
      raised exception, as a Python dictionary does.
    - The modules [meanFieldIsing] and [utils] are not part of
      [solvers.py]; the functions that the cluster expansion calls in
      them are the fields of the class [Collaborators].
    - [solve] begins by calling [self.coocurrence_matrix], an attribute
      that neither [ClusterExpansion] nor its base class [Solver]
      defines; the record [Self] says whether the object at hand
      has been given one.
    - [print] statements (the [verbose] and [veryVerbose] flags) are
      dropped; a ghost event trace in the state records instead which
      entropy computations, memo stores and candidate evaluations took
      place, and in which order. *)

From Stdlib Require Import Floats.
From stdpp Require Import base gmap list sorting strings.

Local Open Scope Z_scope.

(** ** Exceptions and results *)

Inductive Error : Type :=
  | Exception    (* a bare [raise Exception] *)
  | KeyError     (* dictionary lookup of a missing key *)
  | IndexError   (* list or array index out of range *)
  | TypeError    (* call with a keyword the signature does not have *)
  | AttributeError (* lookup of an attribute the object does not have *)
  | OutOfFuel.   (* the embedding's recursion bound, never a Python error *)

Inductive Result (A : Type) : Type :=
  | Ok (a : A)
  | Raise (e : Error).
Arguments Ok {A} a.
Arguments Raise {A} e.

Definition rbind {A B} (r : Result A) (k : A → Result B) : Result B :=
  match r with
  | Ok a => k a
  | Raise e => Raise e
  end.

Declare Scope result_scope.
Delimit Scope result_scope with result.
Notation "x ←r c ; k" := (rbind c (λ x, k))
  (at level 20, c at level 100, k at level 200, right associativity,
   only parsing) : result_scope.

(** ** Scalars, vectors and matrices *)

Class Scalar : Type := {
  scal : Type;
  s_zero : scal;                       (* 0. *)
  s_one : scal;                        (* 1. *)
  s_half : scal;                       (* 0.5 *)
  s_two : scal;                        (* 2 *)
  s_add : scal → scal → scal;
  s_sub : scal → scal → scal;
  s_mul : scal → scal → scal;
  s_div : scal → scal → scal;
  s_neg : scal → scal;
  s_log : scal → scal;
  s_abs : scal → scal;
  s_gtb : scal → scal → bool           (* x > y *)
}.

(** The algebra that exact (rounding-free) arithmetic satisfies; only
    the theorems that rearrange sums assume it. *)
Record ScalarLaws (SC : Scalar) : Prop := {
  s_add_comm : ∀ x y : scal, s_add x y = s_add y x;
  s_add_assoc : ∀ x y z : scal, s_add x (s_add y z) = s_add (s_add x y) z;
  s_add_zero : ∀ x : scal, s_add x s_zero = x;
  s_sub_add : ∀ x y : scal, s_add (s_sub x y) y = x;
  s_add_sub : ∀ x y : scal, s_sub (s_add x y) y = x
}.

(** What [>] satisfies on the scalars: a value above the larger of two
    thresholds is above the smaller one. *)
Definition GtTransitive (SC : Scalar) : Prop :=
  ∀ x t1 t2 : scal, s_gtb t2 t1 = true → s_gtb x t2 = true → s_gtb x t1 = true.

Section Arrays.
Context {SC : Scalar}.

Definition vector : Type := list scal.
Definition matrix : Type := list vector.

Definition len {A} (l : list A) : Z := Z.of_nat (length l).

(** [a[i]] on a Python list or numpy axis: negative indices count
    from the end, anything else out of range raises. *)
Definition py_index {A} (l : list A) (i : Z) : Result A :=
  let i' := if i <? 0 then i + len l else i in
  if i' <? 0 then Raise IndexError
  else match l !! Z.to_nat i' with
       | Some x => Ok x
       | None => Raise IndexError
       end.

(** [m[i,j]] *)
Definition np_index2 (m : matrix) (i j : Z) : Result scal :=
  (row ←r py_index m i; py_index row j)%result.

(** Elementwise [a - b] and [a + b] on arrays of one shape (every
    matrix the expansion combines is N x N). *)
Definition m_sub (a b : matrix) : matrix := zip_with (zip_with s_sub) a b.
Definition m_add (a b : matrix) : matrix := zip_with (zip_with s_add) a b.
Definition m_neg (a : matrix) : matrix := map (map s_neg) a.

(** [np.diag] of a matrix and [ndarray.diagonal]: the main diagonal. *)
Fixpoint diagonal_from (i : nat) (m : matrix) : vector :=
  match m with
  | [] => []
  | row :: m' =>
      match row !! i with
      | Some x => x :: diagonal_from (Datatypes.S i) m'
      | None => []
      end
  end.
Definition np_diagonal (m : matrix) : vector := diagonal_from 0 m.

(** [np.diag] of a vector: the square matrix with it on the diagonal. *)
Definition np_diag_matrix (v : vector) : matrix :=
  imap (λ i x, <[i:=x]> (replicate (length v) s_zero)) v.

(** [np.zeros((n,n))] *)
Definition np_zeros (n : Z) : matrix :=
  replicate (Z.to_nat n) (replicate (Z.to_nat n) s_zero).

(** [np.sum] of a vector. *)
Definition np_sum (v : vector) : scal := foldr s_add s_zero v.
End Arrays.

(** ** Integer index arrays *)

(** [np.sort] on integers: ascending order. *)
Definition np_sort (l : list Z) : list Z := merge_sort Z.le l.

(** [np.unique]: the sorted distinct values. *)
Definition np_unique (l : list Z) : list Z := np_sort (remove_dups l).

(** [np.intersect1d]: the sorted distinct values present in both. *)
Definition np_intersect1d (a b : list Z) : list Z :=
  np_unique (filter (λ x, x ∈ b) a).

(** [np.union1d]: the sorted distinct values present in either. *)
Definition np_union1d (a b : list Z) : list Z := np_unique (a ++ b).

(** [range(n)] and [range(start, stop, -1)]. *)
Definition py_range (n : Z) : list Z := seqZ 0 n.
Definition py_range_down (start stop : Z) : list Z :=
  reverse (seqZ (stop + 1) (start - stop)).

(** ** Cluster identity and subset enumeration *)

(** [clusterID]: [tuple(np.sort(cluster))]. *)
Definition clusterID (cluster : list Z) : list Z := np_sort cluster.

(** [subsets(set, size, sort=False)].

    [rest] is a copy of [set] without its first element ([rest.remove(s)]
    removes the first occurrence of [rest[0]], which is the head).  The
    lists that [srest.append(s)] mutates are fresh in the recursive
    result: [subsets] hands its argument back unchanged only when
    [size == len(set)], which the recursive call with [size-1] on [rest]
    cannot meet, so a functional append is faithful. *)
Fixpoint subsets (set : list Z) (size : Z) (sort : bool)
    : Result (list (list Z)) :=
  if negb (len set =? len (np_unique set)) then Raise Exception
  else if size =? len set then Ok [set]
  else if size >? len set then Ok []
  else if size <=? 0 then Ok []
  else if size =? 1 then Ok (map (λ s, [s]) set)
  else
    match set with
    | [] => Raise IndexError
    | s :: rest =>
        (subrest1 ←r subsets rest size false;
         subrest2 ←r subsets rest (size - 1) false;
         let sub := subrest1 ++ map (λ srest, srest ++ [s]) subrest2 in
         Ok (if sort then map np_sort sub else sub))%result
    end.

(** ** The collaborators outside [solvers.py] *)

(** [meanFieldIsing.*], [utils.convert_params], [squareform] (which
    [utils] re-exports from scipy) and the free function [SmeanField]
    are called by the cluster expansion but defined elsewhere.  They
    are pure functions here. *)
Class Collaborators (SC : Scalar) : Type := {
  coocCluster : matrix → list Z → matrix;
  (* coocMatCluster, Jinit, priorLmbda, numSamples *)
  findJmatrixAnalytic_CoocMat :
    matrix → option matrix → scal → option Z → matrix;
  JfullFromCluster : matrix → list Z → Z → matrix;
  analyticEntropy : matrix → scal;
  symmetrizeUsingUpper : matrix → matrix;
  zeroDiag : matrix → matrix;
  (* cluster, coocMat, meanFieldPriorLmbda, numSamples *)
  SmeanField : list Z → matrix → scal → option Z → scal * matrix;
  squareform : matrix → vector;
  (* h, J, convertTo, concat; every call site passes concat=True *)
  convert_params : vector → vector → string → bool → vector
}.

(** ** The memo registry and the monad of the stateful methods *)

Inductive Event : Type :=
  | EvS (cluster : list Z)         (* [self.S] entered *)
  | EvNumeric (cluster : list Z)   (* [findJmatrixAnalytic_CoocMat] called *)
  | EvStore (cID : list Z)         (* memo entry written *)
  | EvEval (gammaU : list Z).      (* [solve] hands a candidate to [deltaS] *)

Record Registry {SC : Scalar} : Type := mkRegistry {
  deltaSdict : gmap (list Z) scal;
  deltaJdict : gmap (list Z) matrix;
  trace : list Event               (* newest event first *)
}.
Arguments mkRegistry {SC} _ _ _.

Section Monad.
Context {SC : Scalar}.

Definition empty_registry : Registry := mkRegistry ∅ ∅ [].

Definition M (A : Type) : Type := Registry → Result A * Registry.

Definition ret {A} (a : A) : M A := λ σ, (Ok a, σ).
Definition raise {A} (e : Error) : M A := λ σ, (Raise e, σ).
Definition bind {A B} (c : M A) (k : A → M B) : M B :=
  λ σ, match c σ with
       | (Ok a, σ') => k a σ'
       | (Raise e, σ') => (Raise e, σ')
       end.
Definition lift {A} (r : Result A) : M A := λ σ, (r, σ).
Definition get_registry : M Registry := λ σ, (Ok σ, σ).
Definition emit (ev : Event) : M unit :=
  λ σ, (Ok tt, mkRegistry (deltaSdict σ) (deltaJdict σ) (ev :: trace σ)).
Definition store_S (cID : list Z) (v : scal) : M unit :=
  λ σ, (Ok tt, mkRegistry (<[cID:=v]> (deltaSdict σ)) (deltaJdict σ) (trace σ)).
Definition store_J (cID : list Z) (v : matrix) : M unit :=
  λ σ, (Ok tt, mkRegistry (deltaSdict σ) (<[cID:=v]> (deltaJdict σ)) (trace σ)).
End Monad.

Declare Scope cx_scope.
Delimit Scope cx_scope with cx.
Notation "x ⟵ c ; k" := (bind c (λ x, k))
  (at level 20, c at level 100, k at level 200, right associativity,
   only parsing) : cx_scope.
Notation "' p ⟵ c ; k" := (bind c (λ x, let 'p := x in k))
  (at level 20, p pattern, c at level 100, k at level 200,
   right associativity, only parsing) : cx_scope.
Notation "c ;; k" := (bind c (λ _, k))
  (at level 100, k at level 200, right associativity, only parsing) : cx_scope.

Section Loops.
Context {SC : Scalar}.

(** A [for] loop that threads an accumulator; an exception in the body
    leaves the loop. *)
Fixpoint foldM {A B} (body : B → A → M B) (acc : B) (l : list A) : M B :=
  match l with
  | [] => ret acc
  | x :: l' => (acc' ⟵ body acc x; foldM body acc' l')%cx
  end.
End Loops.

(** ** The methods of [ClusterExpansion] *)

Section ClusterExpansion.
Context {SC : Scalar} {CO : Collaborators SC}.

(** [S(cluster, coocMat, deltaJdict, useAnalyticResults, priorLmbda,
    numSamples)]: entropy and full-size interaction matrix of a cluster.
    [deltaJdict] is not used by the body.  The name avoids the
    successor constructor of [nat]. *)
Definition S_ (cluster : list Z) (coocMat : matrix)
    (useAnalyticResults : bool) (priorLmbda : scal) (numSamples : option Z)
    : M (scal * matrix) :=
  (emit (EvS cluster);;
   if len cluster =? 0 then raise Exception
   else
     J ⟵ (if (len cluster =? 1) && useAnalyticResults then
            c0 ⟵ lift (py_index cluster 0);
            p ⟵ lift (np_index2 coocMat c0 c0);
            ret [[ s_neg (s_log (s_div p (s_sub s_one p))) ]]
          else if (len cluster =? 2) && useAnalyticResults then
            c0 ⟵ lift (py_index cluster 0);
            c1 ⟵ lift (py_index cluster 1);
            let i := Z.min c0 c1 in
            let j := Z.max c0 c1 in
            pi ⟵ lift (np_index2 coocMat i i);
            pj ⟵ lift (np_index2 coocMat j j);
            pij ⟵ lift (np_index2 coocMat i j);
            let rest := s_add (s_sub (s_sub s_one pi) pj) pij in
            let Jii := s_neg (s_log (s_div (s_sub pi pij) rest)) in
            let Jjj := s_neg (s_log (s_div (s_sub pj pij) rest)) in
            let Jij :=
              s_sub (s_add (s_add (s_neg (s_log pij)) (s_log (s_sub pi pij)))
                           (s_log (s_sub pj pij)))
                    (s_log rest) in
            ret [[ Jii; s_mul s_half Jij ]; [ s_mul s_half Jij; Jjj ]]
          else
            let coocMatCluster := coocCluster coocMat cluster in
            emit (EvNumeric cluster);;
            ret (findJmatrixAnalytic_CoocMat coocMatCluster None
                   priorLmbda numSamples));
     let N := len coocMat in
     let Jfull := JfullFromCluster J cluster N in
     let ent := analyticEntropy J in
     ret (ent, Jfull))%cx.

(** [Sindependent(cluster, coocMat)]: entropy and fields of the
    independent model on the cluster. *)
Definition Sindependent (cluster : list Z) (coocMat : matrix)
    : scal * matrix :=
  let coocMatCluster := coocCluster coocMat cluster in
  let coocMatCluster := symmetrizeUsingUpper coocMatCluster in
  let freqs := np_diagonal coocMatCluster in
  let h := map (λ f, s_neg (s_log (s_div f (s_sub s_one f)))) freqs in
  let Jind := np_diag_matrix h in
  let Sinds :=
    map (λ f, s_sub (s_mul (s_neg f) (s_log f))
                    (s_mul (s_sub s_one f) (s_log (s_sub s_one f)))) freqs in
  let Sind := np_sum Sinds in
  let Nfull := len coocMat in
  let Jfull := JfullFromCluster Jind cluster Nfull in
  (Sind, Jfull).

(** The reference subtracted by [deltaS] and used by [solve]'s
    assembly: independent, else mean-field. *)
Definition subtract_reference (cluster : list Z) (coocMat : matrix)
    (meanFieldRef independentRef : bool) (meanFieldPriorLmbda : scal)
    (numSamples : option Z) (acc : scal * matrix) : scal * matrix :=
  let '(deltaScluster, deltaJcluster) := acc in
  if independentRef then
    let '(S0cluster, J0cluster) := Sindependent cluster coocMat in
    (s_sub deltaScluster S0cluster, m_sub deltaJcluster J0cluster)
  else if meanFieldRef then
    let '(S0cluster, J0cluster) :=
      SmeanField cluster coocMat meanFieldPriorLmbda numSamples in
    (s_sub deltaScluster S0cluster, m_sub deltaJcluster J0cluster)
  else acc.

(** [deltaS], "Algorithm 1".  The recursion descends to strictly
    smaller clusters; [fuel] bounds its depth. *)
Fixpoint deltaS_rec (fuel : nat) (cluster : list Z) (coocMat : matrix)
    (meanFieldRef : bool) (priorLmbda : scal) (numSamples : option Z)
    (independentRef : bool) (meanFieldPriorLmbda : option scal)
    {struct fuel} : M (scal * matrix) :=
  match fuel with
  | O => raise OutOfFuel
  | Datatypes.S fuel' =>
    (if (independentRef && meanFieldRef)
        || negb (independentRef || meanFieldRef)
     then raise Exception
     else
       let meanFieldPriorLmbda' := default priorLmbda meanFieldPriorLmbda in
       let cID := clusterID cluster in
       σ ⟵ get_registry;
       match deltaSdict σ !! cID with
       | Some dS =>
           match deltaJdict σ !! cID with
           | Some dJ => ret (dS, dJ)
           | None => raise KeyError
           end
       | None =>
           (* start with full entropy (and J) *)
           full ⟵ S_ cluster coocMat false priorLmbda numSamples;
           let start :=
             subtract_reference cluster coocMat meanFieldRef independentRef
               meanFieldPriorLmbda' numSamples full in
           (* subtract entropies of sub-clusters *)
           '(deltaScluster, deltaJcluster) ⟵
             foldM (λ acc size,
                 subclusters ⟵ lift (subsets cluster size false);
                 foldM (λ '(deltaScluster, deltaJcluster) subcluster,
                     '(deltaSsubcluster, deltaJsubcluster) ⟵
                       deltaS_rec fuel' subcluster coocMat meanFieldRef
                         priorLmbda numSamples independentRef
                         (Some meanFieldPriorLmbda');
                     ret (s_sub deltaScluster deltaSsubcluster,
                          m_sub deltaJcluster deltaJsubcluster))
                   acc subclusters)
               start (py_range_down (len cluster - 1) 0);
           store_S cID deltaScluster;;
           store_J cID deltaJcluster;;
           emit (EvStore cID);;
           ret (deltaScluster, deltaJcluster)
       end)%cx
  end.

Definition deltaS (cluster : list Z) (coocMat : matrix)
    (meanFieldRef : bool) (priorLmbda : scal) (numSamples : option Z)
    (independentRef : bool) (meanFieldPriorLmbda : option scal)
    : M (scal * matrix) :=
  deltaS_rec (Datatypes.S (length cluster)) cluster coocMat meanFieldRef
    priorLmbda numSamples independentRef meanFieldPriorLmbda.
End ClusterExpansion.

(** [d[k]] on a dictionary. *)
Definition dict_get `{Countable K} {V} (d : gmap K V) (k : K) : Result V :=
  match d !! k with
  | Some v => Ok v
  | None => Raise KeyError
  end.

(** [l[i]] for a position produced by [range(len(l))]. *)
Definition list_get {A} (l : list A) (i : nat) : Result A :=
  match l !! i with
  | Some x => Ok x
  | None => Raise IndexError
  end.

(** The positions visited by
    [for i in range(n): for j in range(i+1,n)], in that order. *)
Definition index_pairs (n : nat) : list (nat * nat) :=
  i ← seq 0 n; (λ j, (i, j)) <$> seq (Datatypes.S i) (n - Datatypes.S i).

(** What [solve] returns: the multipliers, or with [return_all] also the
    entropy and the generation map (the two memo dictionaries it returns
    as well are the ones in the state). *)
Inductive SolveReturn {SC : Scalar} : Type :=
  | ReturnAll (ent : scal) (multipliers : vector)
      (clusters : gmap Z (list (list Z)))
  | ReturnMultipliers (multipliers : vector).

(** The parameters in the signature of [solve]. *)
Definition solve_parameters : list string :=
  ["X"; "threshold"; "cluster"; "deltaSdict"; "deltaJdict"; "verbose";
   "priorLmbda"; "numSamples"; "meanFieldRef"; "independentRef";
   "veryVerbose"; "meanFieldPriorLmbda"; "return_all"]%string.

(** An instance of [ClusterExpansion], as far as the methods modelled
    here look at it.  They read one attribute of [self] besides each
    other: [self.coocurrence_matrix], in the first statement of
    [solve].  No method of that name is defined in [ClusterExpansion]
    or in [Solver], and no [__init__] assigns one, so an instance as
    the constructor leaves it holds [None] and the lookup raises
    [AttributeError]; [Some f] is an instance that was given the
    attribute from outside. *)
Record Self {SC : Scalar} : Type := {
  coocurrence_matrix_attr : option (matrix → matrix)
}.

(** The instance that [ClusterExpansion(...)] constructs. *)
Definition constructed {SC : Scalar} : Self :=
  {| coocurrence_matrix_attr := None |}.

(** [self.coocurrence_matrix] *)
Definition getattr_coocurrence_matrix {SC : Scalar} (self : Self)
    : Result (matrix → matrix) :=
  match coocurrence_matrix_attr self with
  | Some f => Ok f
  | None => Raise AttributeError
  end.

Section Solve.
Context {SC : Scalar} {CO : Collaborators SC}.

(** The body of the double loop over positions [i < j] of the current
    generation; [next] is [clusters[size+1]]. *)
Definition grow_pair (coocMat : matrix) (T : scal) (size : Z)
    (current : list (list Z)) (meanFieldRef : bool) (priorLmbda : scal)
    (numSamples : option Z) (independentRef : bool)
    (meanFieldPriorLmbda : scal)
    (next : list (list Z)) (ij : nat * nat) : M (list (list Z)) :=
  (gamma1 ⟵ lift (list_get current ij.1);
   gamma2 ⟵ lift (list_get current ij.2);
   let gammaI := np_intersect1d gamma1 gamma2 in
   let gammaU := np_sort (np_union1d gamma1 gamma2) in
   if len gammaI =? size - 1 then
     emit (EvEval gammaU);;
     '(deltaSgammaU, deltaJgammaU) ⟵
       deltaS gammaU coocMat meanFieldRef priorLmbda numSamples
         independentRef (Some meanFieldPriorLmbda);
     if s_gtb (s_abs deltaSgammaU) T && negb (bool_decide (gammaU ∈ next))
     then ret (next ++ [gammaU])
     else ret next
   else ret next)%cx.

(** One pass of the [while] body: the generation of size [size+1]
    grown from the generation [current] of size [size]. *)
Definition grow_generation (coocMat : matrix) (T : scal) (size : Z)
    (current : list (list Z)) (meanFieldRef : bool) (priorLmbda : scal)
    (numSamples : option Z) (independentRef : bool)
    (meanFieldPriorLmbda : scal) : M (list (list Z)) :=
  foldM (grow_pair coocMat T size current meanFieldRef priorLmbda
           numSamples independentRef meanFieldPriorLmbda)
    [] (index_pairs (length current)).

(** [while len(clusters[size]) > 0: ...; size += 1]. *)
Fixpoint grow_loop (fuel : nat) (coocMat : matrix) (T : scal) (size : Z)
    (clusters : gmap Z (list (list Z))) (meanFieldRef : bool)
    (priorLmbda : scal) (numSamples : option Z) (independentRef : bool)
    (meanFieldPriorLmbda : scal) {struct fuel}
    : M (Z * gmap Z (list (list Z))) :=
  match fuel with
  | O => raise OutOfFuel
  | Datatypes.S fuel' =>
    (current ⟵ lift (dict_get clusters size);
     if len current >? 0 then
       next ⟵ grow_generation coocMat T size current meanFieldRef
                priorLmbda numSamples independentRef meanFieldPriorLmbda;
       grow_loop fuel' coocMat T (size + 1) (<[size + 1 := next]> clusters)
         meanFieldRef priorLmbda numSamples independentRef
         meanFieldPriorLmbda
     else ret (size, clusters))%cx
  end.

(** [clusters.keys()]; CPython 2 iterates a dictionary whose keys are
    the small integers [1..size] in ascending order. *)
Definition dict_keys (clusters : gmap Z (list (list Z))) : list Z :=
  np_sort (elements (dom clusters)).

(** The assembly loop: every retained cluster's memoized contribution
    is added to the reference. *)
Definition assemble (clusters : gmap Z (list (list Z)))
    (start : scal * matrix) : M (scal * matrix) :=
  foldM (λ acc size,
      generation ⟵ lift (dict_get clusters size);
      foldM (λ '(ent, J) cluster,
          let cID := clusterID cluster in
          σ ⟵ get_registry;
          dS ⟵ lift (dict_get (deltaSdict σ) cID);
          dJ ⟵ lift (dict_get (deltaJdict σ) cID);
          ret (s_add ent dS, m_add J dJ))
        acc generation)%cx
    start (dict_keys clusters).

(** The conversion of the assembled matrix into the multipliers. *)
Definition to_multipliers (J : matrix) : vector :=
  let h := map s_neg (np_diagonal J) in
  let J := m_neg (zeroDiag J) in
  convert_params h (map (λ x, s_mul x s_two) (squareform J)) "11" true.

(** [solve], "Algorithm 2".  The first statement looks up
    [self.coocurrence_matrix], before anything else is evaluated; on
    an instance without that attribute the call ends there.
    [deltaSdict] and [deltaJdict] are the dictionaries of the initial
    state ([None] is the empty registry).  A generation of size [k]
    holds lists of [k] distinct indices of [cluster], so the [while]
    loop runs at most [len(cluster)] times. *)
Definition solve (self : Self) (X : matrix) (threshold : scal)
    (cluster : option (list Z)) (priorLmbda : scal)
    (numSamples : option Z) (meanFieldRef independentRef : bool)
    (meanFieldPriorLmbda : option scal) (return_all : bool)
    : M SolveReturn :=
  (coocurrence_matrix ⟵ lift (getattr_coocurrence_matrix self);
   let coocMat :=
     coocurrence_matrix
       (map (map (λ x, s_div (s_add x s_one) s_two)) X) in
   if independentRef && meanFieldRef then raise Exception
   else
     let meanFieldPriorLmbda := default priorLmbda meanFieldPriorLmbda in
     let N := len coocMat in
     let T := threshold in
     let cluster := default (py_range N) cluster in
     let clusters : gmap Z (list (list Z)) :=
       {[ 1 := map (λ i, [i]) cluster ]} in
     '(size, clusters) ⟵
       grow_loop (Datatypes.S (length cluster)) coocMat T 1 clusters
         meanFieldRef priorLmbda numSamples independentRef
         meanFieldPriorLmbda;
     let '(ent, J0) :=
       if independentRef then Sindependent cluster coocMat
       else if meanFieldRef then
         SmeanField cluster coocMat meanFieldPriorLmbda numSamples
       else (s_zero, np_zeros N) in
     '(ent, J) ⟵ assemble clusters (ent, J0);
     let multipliers := to_multipliers J in
     if return_all then ret (ReturnAll ent multipliers clusters)
     else ret (ReturnMultipliers multipliers))%cx.

(** A call of [solve] that also passes the keyword arguments [extra]:
    Python rejects a keyword that the signature does not name when it
    binds the arguments, before the body runs. *)
Definition solve_with_keywords (extra : list string) (self : Self)
    (X : matrix) (threshold : scal) (cluster : option (list Z))
    (priorLmbda : scal) (numSamples : option Z)
    (meanFieldRef independentRef : bool)
    (meanFieldPriorLmbda : option scal) (return_all : bool)
    : M SolveReturn :=
  if forallb (λ kw, bool_decide (kw ∈ solve_parameters)) extra
  then solve self X threshold cluster priorLmbda numSamples meanFieldRef
         independentRef meanFieldPriorLmbda return_all
  else raise TypeError.
End Solve.

(** ** An executable instance

    Integer scalars and small stand-ins for the collaborators, used to
    run the embedding on concrete inputs. *)
Module IntModel.

#[export] Instance Z_scalar : Scalar := {|
  scal := Z;
  s_zero := 0; s_one := 1; s_half := 0; s_two := 2;
  s_add := Z.add; s_sub := Z.sub; s_mul := Z.mul; s_div := Z.div;
  s_neg := Z.opp; s_log := Z.log2; s_abs := Z.abs; s_gtb := Z.gtb
|}.

Definition entry (m : list (list Z)) (i j : Z) : Z :=
  default 0 (row ← m !! Z.to_nat i; row !! Z.to_nat j).

(** Co-occurrence counts of the columns of a 0/1 sample matrix. *)
Definition counts (X : list (list Z)) : list (list Z) :=
  let n := Z.of_nat (length (default [] (head X))) in
  (λ i, (λ j, foldr Z.add 0 ((λ r, entry [r] 0 i * entry [r] 0 j) <$> X))
           <$> seqZ 0 n) <$> seqZ 0 n.

(** The sub-block on the cluster's indices, taken in ascending order. *)
Definition block (m : list (list Z)) (cluster : list Z) : list (list Z) :=
  let c := np_sort cluster in
  (λ i, (λ j, entry m i j) <$> c) <$> c.

(** The block written back into an [n] x [n] matrix of zeros. *)
Definition embed (J : list (list Z)) (cluster : list Z) (n : Z)
    : list (list Z) :=
  let c := np_sort cluster in
  let pos (a : Z) : option nat := fst <$> list_find (λ x, x = a) c in
  (λ a, (λ b, default 0 (i ← pos a; j ← pos b;
                         row ← J !! i; row !! j))
           <$> seqZ 0 n) <$> seqZ 0 n.

Definition total (J : list (list Z)) : Z := foldr Z.add 0 (concat J).

Definition upper (m : list (list Z)) : list (list Z) :=
  imap (λ i row, imap (λ j x, if (j <? i)%nat
                              then entry m (Z.of_nat j) (Z.of_nat i)
                              else x) row) m.

(** Stand-ins for the three conversion routines: the matrix with its
    diagonal zeroed, its upper triangle row by row, and the two
    vectors joined.  Nothing below depends on what they return. *)
Definition zero_diagonal (J : list (list Z)) : list (list Z) :=
  imap (λ i row, <[i:=0]> row) J.
Definition upper_triangle (J : list (list Z)) : list Z :=
  concat (imap (λ i row, drop (Datatypes.S i) row) J).

#[export] Instance stand_ins : Collaborators Z_scalar := {|
  coocCluster := block;
  findJmatrixAnalytic_CoocMat := λ C _ _ _, C;
  JfullFromCluster := embed;
  analyticEntropy := λ J, total J * total J;
  symmetrizeUsingUpper := upper;
  zeroDiag := zero_diagonal;
  SmeanField := λ cluster coocMat _ _,
    (total (block coocMat cluster), np_zeros (len coocMat));
  squareform := upper_triangle;
  convert_params := λ h J _ _, h ++ J
|}.

(** Three variables, four samples in the code's -1/+1 convention. *)
Definition samples3 : @matrix Z_scalar :=
  [[1; 1; -1]; [1; -1; 1]; [1; 1; 1]; [-1; 1; 1]].
End IntModel.

(** ** The same stand-ins over binary64

    The arithmetic of the source is IEEE binary64.  This instance runs
    the embedding on the kernel's primitive floats, with the stand-ins
    of [IntModel] carried over: the block of a cluster is taken in
    ascending order of its indices, the solver returns the block, the
    entropy of a matrix is the square of the sum of its entries and the
    mean-field reference entropy is the sum of the block's entries, so
    the entropies of a cluster do not depend on the order in which its
    indices are listed.  The logarithm is not an operation of the
    primitive floats; its field holds the identity, which the runs on
    this instance (mean-field reference, no closed forms) never
    evaluate. *)
Module FloatModel.

#[local] Instance binary64 : Scalar := {|
  scal := float;
  s_zero := 0%float; s_one := 1%float; s_half := 0.5%float; s_two := 2%float;
  s_add := PrimFloat.add; s_sub := PrimFloat.sub;
  s_mul := PrimFloat.mul; s_div := PrimFloat.div;
  s_neg := PrimFloat.opp; s_log := λ x, x; s_abs := PrimFloat.abs;
  s_gtb := λ x y, PrimFloat.ltb y x
|}.

Definition entry (m : list (list float)) (i j : Z) : float :=
  default 0%float (row ← m !! Z.to_nat i; row !! Z.to_nat j).

Definition block (m : list (list float)) (cluster : list Z)
    : list (list float) :=
  let c := np_sort cluster in
  (λ i, (λ j, entry m i j) <$> c) <$> c.

Definition embed (J : list (list float)) (cluster : list Z) (n : Z)
    : list (list float) :=
  let c := np_sort cluster in
  let pos (a : Z) : option nat := fst <$> list_find (λ x, x = a) c in
  (λ a, (λ b, default 0%float (i ← pos a; j ← pos b;
                               row ← J !! i; row !! j))
           <$> seqZ 0 n) <$> seqZ 0 n.

(** The sum of the entries, added from the last one backwards. *)
Definition total (J : list (list float)) : float :=
  foldr PrimFloat.add 0%float (concat J).

Definition upper (m : list (list float)) : list (list float) :=
  imap (λ i row, imap (λ j x, if (j <? i)%nat
                              then entry m (Z.of_nat j) (Z.of_nat i)
                              else x) row) m.

Definition stand_ins : Collaborators binary64 := {|
  coocCluster := block;
  findJmatrixAnalytic_CoocMat := λ C _ _ _, C;
  JfullFromCluster := embed;
  analyticEntropy := λ J, PrimFloat.mul (total J) (total J);
  symmetrizeUsingUpper := upper;
  zeroDiag := λ J, imap (λ i row, <[i:=0%float]> row) J;
  SmeanField := λ cluster coocMat _ _,
    (total (block coocMat cluster),
     replicate (length coocMat) (replicate (length coocMat) 0%float));
  squareform := λ J, concat (imap (λ i row, drop (Datatypes.S i) row) J);
  convert_params := λ h J _ _, h ++ J
|}.

(** Four variables: a symmetric matrix with entries between 0 and 1. *)
Definition coocMat4 : list (list float) :=
  [[0x1.570a3d70a3d71p-1; 0x1.1eb851eb851ecp-3; 0x1.47ae147ae147bp-3;
    0x1.999999999999ap-4];
   [0x1.1eb851eb851ecp-3; 0x1.1eb851eb851ecp-1; 0x1.6666666666666p-2;
    0x1.6666666666666p-2];
   [0x1.47ae147ae147bp-3; 0x1.6666666666666p-2; 0x1.3d70a3d70a3d7p-2;
    0x1.d1eb851eb85fdp-2];
   [0x1.999999999999ap-4; 0x1.6666666666666p-2; 0x1.d1eb851eb85fdp-2;
    0x1.bd70a3d70a3d7p-1]]%float.
End FloatModel.

(** ** Vocabulary of the statements *)

(** The number of [k]-element subsets of an [n]-element set. *)
Fixpoint binom (n k : nat) : nat :=
  match n, k with
  | _, O => 1
  | O, Datatypes.S _ => 0
  | Datatypes.S n', Datatypes.S k' => binom n' (Datatypes.S k') + binom n' k'
  end.

(** [x] lists [k] distinct elements of [set]. *)
Definition is_subset_of_size (set : list Z) (k : nat) (x : list Z) : Prop :=
  NoDup x ∧ length x = k ∧ x ⊆ set.

(** Two index lists denote the same index set. *)
Definition same_index_set (x y : list Z) : Prop := ∀ a, a ∈ x ↔ a ∈ y.

(** A run of the enumeration that guarantees everything [subsets]
    promises on a duplicate-free list, for a positive size. *)
Definition enumerates (set : list Z) (k : nat) (L : list (list Z)) : Prop :=
  length L = binom (length set) k ∧
  Forall (is_subset_of_size set k) L ∧
  NoDup (clusterID <$> L) ∧
  ∀ T, is_subset_of_size set k T → clusterID T ∈ clusterID <$> L.

(** [older] events precede [newer] ones: [a] was stored before [b]. *)
Definition stored_before (tr : list Event) (a b : list Z) : Prop :=
  ∃ newer older, tr = newer ++ EvStore b :: older ∧ EvStore a ∈ older.

(** The candidates [solve] evaluated, the clusters [S] was entered with
    and the clusters handed to the numerical solver, newest first. *)
Definition evaluated (tr : list Event) : list (list Z) :=
  omap (λ e, match e with EvEval g => Some g | _ => None end) tr.
Definition entropy_calls (tr : list Event) : list (list Z) :=
  omap (λ e, match e with EvS c => Some c | _ => None end) tr.
Definition numeric_calls (tr : list Event) : list (list Z) :=
  omap (λ e, match e with EvNumeric c => Some c | _ => None end) tr.

(** The growth rule of [solve]: the pair of clusters at two positions of
    the generation of size [size] qualifies when the intersection has
    [size - 1] elements; its candidate is the sorted union. *)
Definition qualifies (size : Z) (gamma1 gamma2 : list Z) : bool :=
  len (np_intersect1d gamma1 gamma2) =? size - 1.
Definition merged (gamma1 gamma2 : list Z) : list Z :=
  np_sort (np_union1d gamma1 gamma2).
Definition candidate (size : Z) (current : list (list Z)) (ij : nat * nat)
    : list (list Z) :=
  match current !! ij.1, current !! ij.2 with
  | Some gamma1, Some gamma2 =>
      if qualifies size gamma1 gamma2 then [merged gamma1 gamma2] else []
  | _, _ => []
  end.

(** The candidates of one transition, one for every qualifying pair of
    positions [i < j], in the order of the loops. *)
Definition candidates (size : Z) (current : list (list Z)) : list (list Z) :=
  index_pairs (length current) ≫= candidate size current.

(** All sublists of a list; on a sorted identity these are the
    identities of its subsets. *)
Fixpoint sublists (l : list Z) : list (list Z) :=
  match l with
  | [] => [[]]
  | a :: l' => sublists l' ++ map (cons a) (sublists l')
  end.

(** The identities of the non-empty subsets of a cluster, the cluster
    itself included. *)
Definition nonempty_subsets (c : list Z) : list (list Z) :=
  filter (λ k, k ≠ []) (sublists (clusterID c)).

Section Vocabulary.
Context {SC : Scalar} {CO : Collaborators SC}.
Variables (coocMat : matrix) (meanFieldRef : bool) (priorLmbda : scal)
  (numSamples : option Z) (independentRef : bool)
  (meanFieldPriorLmbda : scal).

(** What [S] returns for a non-empty cluster when [deltaS] calls it. *)
Definition full_J (c : list Z) : matrix :=
  findJmatrixAnalytic_CoocMat (coocCluster coocMat c) None
    priorLmbda numSamples.
Definition full_entropy (c : list Z) : scal := analyticEntropy (full_J c).
Definition full (c : list Z) : scal * matrix :=
  (full_entropy c, JfullFromCluster (full_J c) c (len coocMat)).

(** The entropy of the active reference model. *)
Definition reference_entropy (c : list Z) : scal :=
  if independentRef then (Sindependent c coocMat).1
  else (SmeanField c coocMat meanFieldPriorLmbda numSamples).1.

(** The value [deltaS] starts its subtraction loop from. *)
Definition start (c : list Z) : scal * matrix :=
  subtract_reference c coocMat meanFieldRef independentRef
    meanFieldPriorLmbda numSamples (full c).

(** The sub-clusters that the loops of [deltaS] visit, in order. *)
Definition subclusters_of_size (c : list Z) (size : Z) : list (list Z) :=
  match subsets c size false with
  | Ok L => L
  | Raise _ => []
  end.
Definition strict_subclusters (c : list Z) : list (list Z) :=
  size ← py_range_down (len c - 1) 0; subclusters_of_size c size.

(** The memoized entropy contribution of an identity. *)
Definition memo (σ : Registry) (k : list Z) : scal :=
  default s_zero (deltaSdict σ !! k).

(** Sum of a scalar function over a list of identities. *)
Definition sum_over (f : list Z → scal) (keys : list (list Z)) : scal :=
  foldr (λ k acc, s_add (f k) acc) s_zero keys.

(** The subtraction loops of [deltaS], over a recursive call [rec]. *)
Definition subtract_subclusters (rec : list Z → M (scal * matrix))
    (c : list Z) (acc : scal * matrix) : M (scal * matrix) :=
  foldM (λ acc size,
      subclusters ⟵ lift (subsets c size false);
      foldM (λ '(deltaScluster, deltaJcluster) subcluster,
          '(deltaSsubcluster, deltaJsubcluster) ⟵ rec subcluster;
          ret (s_sub deltaScluster deltaSsubcluster,
               m_sub deltaJcluster deltaJsubcluster))
        acc subclusters)%cx
    acc (py_range_down (len c - 1) 0).

(** [deltaS] with the parameters of this section. *)
Definition deltaS_here (fuel : nat) (c : list Z) : M (scal * matrix) :=
  deltaS_rec fuel c coocMat meanFieldRef priorLmbda numSamples
    independentRef (Some meanFieldPriorLmbda).

(** The registry invariant: what every registry built by [deltaS]
    from the empty one satisfies. *)
Record registry_ok (σ : Registry) : Prop := {
  ok_both : ∀ k, is_Some (deltaSdict σ !! k) ↔ is_Some (deltaJdict σ !! k);
  ok_key : ∀ k, is_Some (deltaSdict σ !! k) →
                k ≠ [] ∧ NoDup k ∧ clusterID k = k;
  ok_closed : ∀ k k', is_Some (deltaSdict σ !! k) →
                k' ≠ [] → NoDup k' → k' ⊆ k →
                is_Some (deltaSdict σ !! clusterID k');
  ok_stored : ∀ k, is_Some (deltaSdict σ !! k) ↔ EvStore k ∈ trace σ;
  ok_order : ∀ newer older k k', trace σ = newer ++ EvStore k :: older →
                k' ≠ [] → NoDup k' → k' ⊆ k → clusterID k' ≠ k →
                EvStore (clusterID k') ∈ older;
  ok_value : ∀ k v, deltaSdict σ !! k = Some v →
                ∃ B, clusterID B = k ∧
                     v = fold_left s_sub
                           (memo σ ∘ clusterID <$> strict_subclusters B)
                           (start B).1
}.

(** What a successful call of [deltaS] on [c] establishes when it takes
    a registry [σ] satisfying the invariant to [σ']. *)
Definition deltaS_post (c : list Z) (σ : Registry) (r : scal * matrix)
    (σ' : Registry) : Prop :=
  registry_ok σ' ∧
  deltaSdict σ ⊆ deltaSdict σ' ∧
  evaluated (trace σ') = evaluated (trace σ) ∧
  trace σ `suffix_of` trace σ' ∧
  deltaSdict σ' !! clusterID c = Some r.1 ∧
  deltaJdict σ' !! clusterID c = Some r.2 ∧
  (∀ k, is_Some (deltaSdict σ' !! k) →
        is_Some (deltaSdict σ !! k) ∨ (length k ≤ length c)%nat) ∧
  (deltaSdict σ !! clusterID c = None →
     r.1 = fold_left s_sub
             (memo σ' ∘ clusterID <$> strict_subclusters c) (start c).1) ∧
  (deltaSdict σ !! clusterID c = None →
     (EvNumeric c :: EvS c :: trace σ) `suffix_of` trace σ') ∧
  NoDup c ∧ c ≠ [].
End Vocabulary.

(** The threshold test of [solve] on the memoized contribution of a
    candidate. *)
Definition passes {SC : Scalar} (T : scal) (σ : Registry) (u : list Z) : bool :=
  s_gtb (s_abs (memo σ u)) T.

(** The registry with one more event in its trace. *)
Definition with_event {SC : Scalar} (σ : Registry) (e : Event) : Registry :=
  mkRegistry (deltaSdict σ) (deltaJdict σ) (e :: trace σ).

(** The reference that the assembly of [solve] starts from. *)
Definition assembly_reference {SC : Scalar} {CO : Collaborators SC}
    (coocMat : matrix) (cluster : list Z)
    (meanFieldRef independentRef : bool) (meanFieldPriorLmbda : scal)
    (numSamples : option Z) : scal * matrix :=
  if independentRef then Sindependent cluster coocMat
  else if meanFieldRef then
    SmeanField cluster coocMat meanFieldPriorLmbda numSamples
  else (s_zero, np_zeros (len coocMat)).

(** The full and the reference entropy of a cluster do not depend on
    the order in which its indices are listed. *)
Definition entropies_by_identity {SC : Scalar} {CO : Collaborators SC}
    (coocMat : matrix) (priorLmbda : scal) (numSamples : option Z)
    (independentRef : bool) (meanFieldPriorLmbda : scal) : Prop :=
  ∀ c c', c ≡ₚ c' →
    full_entropy coocMat priorLmbda numSamples c =
      full_entropy coocMat priorLmbda numSamples c' ∧
    reference_entropy coocMat numSamples independentRef meanFieldPriorLmbda c =
      reference_entropy coocMat numSamples independentRef
        meanFieldPriorLmbda c'.

(** What a run of the growth loop that returns leaves behind: the final
    size [m], the generations of every size up to [m], and the
    registry. *)
Record run_facts {SC : Scalar} {CO : Collaborators SC}
    (coocMat : matrix) (cl : list Z) (priorLmbda : scal)
    (numSamples : option Z) (meanFieldRef independentRef : bool)
    (mfpl : scal) (T : scal) (σ : Registry)
    (clusters : gmap Z (list (list Z))) (σ' : Registry) (m : Z) : Prop := {
  run_ok : registry_ok coocMat meanFieldRef priorLmbda numSamples
             independentRef mfpl σ';
  run_extends : deltaSdict σ ⊆ deltaSdict σ';
  run_size : 1 ≤ m;
  run_first : clusters !! 1 = Some (map (λ i, [i]) cl);
  run_last : clusters !! m = Some [];
  run_outside : ∀ k, k < 1 ∨ m < k → clusters !! k = None;
  run_step : ∀ k, 1 ≤ k < m →
    ∃ cur next, clusters !! k = Some cur ∧ clusters !! (k + 1) = Some next ∧
                cur ≠ [] ∧ NoDup next ∧
                Forall (λ u, is_Some (deltaSdict σ' !! u)) (candidates k cur) ∧
                ∀ u, u ∈ next ↔ u ∈ candidates k cur ∧ passes T σ' u = true
}.

(** ** Vocabulary of the further properties *)

(** The identities written to the memo dictionaries, newest first. *)
Definition stores (tr : list Event) : list (list Z) :=
  omap (λ e, match e with EvStore k => Some k | _ => None end) tr.

(** What a call of [deltaS] on [c] adds to the trace between two
    registries: one entropy computation, by the numerical solver, for
    every identity it stores; each stored identity is an index set
    within [c] that was absent before and is stored once. *)
Definition footprint {SC : Scalar} (c : list Z) (σ σ' : Registry) : Prop :=
  ∃ new, trace σ' = new ++ trace σ ∧
    clusterID <$> numeric_calls new ≡ₚ stores new ∧
    entropy_calls new = numeric_calls new ∧
    NoDup (stores new) ∧
    ∀ k, k ∈ stores new →
         k ⊆ c ∧ deltaSdict σ !! k = None ∧ is_Some (deltaSdict σ' !! k).

Import IntModel.

(* Unshadowed names of three definitions, for [unfold] inside the
   sections whose abbreviations fix their leading arguments. *)
Local Abbreviation start_def := start (only parsing).
Local Abbreviation reference_entropy_def := reference_entropy (only parsing).
Local Abbreviation passes_def := passes (only parsing).

(** * Properties *)

(** ** Sorting and cluster identity *)

Lemma np_sort_perm (l : list Z) : np_sort l ≡ₚ l.
Proof. apply merge_sort_Permutation. Qed.

Lemma np_sort_length (l : list Z) : length (np_sort l) = length l.
Proof. by rewrite np_sort_perm. Qed.

Lemma np_sort_elem (l : list Z) (x : Z) : x ∈ np_sort l ↔ x ∈ l.
Proof. by rewrite np_sort_perm. Qed.

Lemma np_sort_NoDup (l : list Z) : NoDup (np_sort l) ↔ NoDup l.
Proof. by rewrite np_sort_perm. Qed.

Lemma np_sort_sorted (l : list Z) : StronglySorted Z.le (np_sort l).
Proof. apply (StronglySorted_merge_sort Z.le); apply _. Qed.

Lemma sorted_perm_eq (l k : list Z) :
  StronglySorted Z.le l → StronglySorted Z.le k → l ≡ₚ k → l = k.
Proof. apply (StronglySorted_unique Z.le). Qed.

Lemma np_sort_of_perm (l k : list Z) : l ≡ₚ k → np_sort l = np_sort k.
Proof.
  intros Hp. apply sorted_perm_eq; try apply np_sort_sorted.
  by rewrite !np_sort_perm.
Qed.

Lemma np_sort_fixed (l : list Z) : StronglySorted Z.le l → np_sort l = l.
Proof.
  intros Hs. apply sorted_perm_eq; [apply np_sort_sorted | done | apply np_sort_perm].
Qed.

Lemma np_sort_idemp (l : list Z) : np_sort (np_sort l) = np_sort l.
Proof. apply np_sort_fixed, np_sort_sorted. Qed.

Lemma clusterID_perm (c c' : list Z) : clusterID c = clusterID c' ↔ c ≡ₚ c'.
Proof.
  split; [|apply np_sort_of_perm].
  unfold clusterID. intros Heq.
  by rewrite <-(np_sort_perm c), <-(np_sort_perm c'), Heq.
Qed.

Lemma clusterID_length (c : list Z) : length (clusterID c) = length c.
Proof. apply np_sort_length. Qed.

Lemma clusterID_idemp (c : list Z) : clusterID (clusterID c) = clusterID c.
Proof. apply np_sort_idemp. Qed.

Lemma clusterID_singleton (a : Z) : clusterID [a] = [a].
Proof. apply np_sort_fixed. repeat constructor. Qed.

(** ** [np.unique] and the duplicate test of [subsets] *)

Lemma remove_dups_length_le (l : list Z) :
  (length (remove_dups l) ≤ length l)%nat.
Proof.
  induction l as [|a l IH]; simpl; [lia|].
  case_decide; simpl; lia.
Qed.

Lemma remove_dups_length_eq (l : list Z) :
  length (remove_dups l) = length l ↔ NoDup l.
Proof.
  induction l as [|a l IH]; simpl.
  - split; [constructor | done].
  - pose proof (remove_dups_length_le l). rewrite NoDup_cons.
    case_decide; simpl.
    + split; [lia | tauto].
    + split; intros; [split; [done | apply IH; lia] | f_equal; apply IH; tauto].
Qed.

Lemma unique_len_eqb (set : list Z) :
  (len set =? len (np_unique set)) = bool_decide (NoDup set).
Proof.
  unfold len, np_unique. rewrite np_sort_length.
  pose proof (remove_dups_length_eq set) as Hiff.
  case_bool_decide as Hnd.
  - apply Z.eqb_eq. apply Hiff in Hnd. lia.
  - apply Z.eqb_neq. intros Heq. apply Hnd, Hiff. lia.
Qed.

(** ** Binomial coefficients *)

Lemma binom_gt (n k : nat) : (n < k)%nat → binom n k = 0%nat.
Proof.
  revert k. induction n as [|n IH]; intros [|k] Hlt; simpl; try lia.
  rewrite !IH; lia.
Qed.

Lemma binom_diag (n : nat) : binom n n = 1%nat.
Proof.
  induction n as [|n IH]; simpl; [done|].
  rewrite IH, binom_gt; lia.
Qed.

Lemma binom_one (n : nat) : binom n 1 = n.
Proof.
  induction n as [|n IH]; simpl; [done|].
  rewrite IH. destruct n; simpl; lia.
Qed.

(** ** Subset enumeration *)

Lemma subsets_unfold (set : list Z) (size : Z) (sort : bool) :
  subsets set size sort =
  if negb (bool_decide (NoDup set)) then Raise Exception
  else if size =? len set then Ok [set]
  else if size >? len set then Ok []
  else if size <=? 0 then Ok []
  else if size =? 1 then Ok (map (λ s, [s]) set)
  else
    match set with
    | [] => Raise IndexError
    | s :: rest =>
        (subrest1 ←r subsets rest size false;
         subrest2 ←r subsets rest (size - 1) false;
         let sub := subrest1 ++ map (λ srest, srest ++ [s]) subrest2 in
         Ok (if sort then map np_sort sub else sub))%result
    end.
Proof. rewrite <-unique_len_eqb. by destruct set. Qed.

Lemma subset_of_size_perm (set : list Z) (x : list Z) :
  NoDup set → is_subset_of_size set (length set) x → x ≡ₚ set.
Proof.
  intros Hset (Hx & Hlen & Hincl).
  apply submseteq_length_Permutation; [|lia].
  by apply NoDup_submseteq.
Qed.

Lemma subset_of_size_length (set : list Z) (k : nat) (x : list Z) :
  is_subset_of_size set k x → (k ≤ length set)%nat.
Proof.
  intros (Hx & Hlen & Hincl). subst k.
  apply submseteq_length, NoDup_submseteq; done.
Qed.

Lemma same_index_set_perm (x y : list Z) :
  NoDup x → NoDup y → same_index_set x y ↔ x ≡ₚ y.
Proof.
  intros Hx Hy. split.
  - intros Hs. by apply NoDup_Permutation.
  - intros Hp a. by rewrite Hp.
Qed.

(** The lists in the enumeration have distinct identities exactly when
    they are pairwise distinct as index sets. *)
Lemma NoDup_ids_distinct (L : list (list Z)) :
  Forall NoDup L → NoDup (clusterID <$> L) →
  ∀ i j x y, L !! i = Some x → L !! j = Some y → i ≠ j →
             ¬ same_index_set x y.
Proof.
  intros Hall Hnd i j x y Hi Hj Hne Hsame.
  apply Hne. eapply NoDup_lookup; [exact Hnd| |].
  - rewrite list_lookup_fmap, Hi. reflexivity.
  - rewrite list_lookup_fmap, Hj. simpl. f_equal.
    symmetry. apply clusterID_perm, same_index_set_perm; [..|done].
    + eapply Forall_lookup_1; eauto.
    + eapply Forall_lookup_1; eauto.
Qed.

Lemma enumerates_singletons (set : list Z) :
  NoDup set → enumerates set 1 (map (λ s, [s]) set).
Proof.
  intros Hset. repeat split.
  - by rewrite length_map, binom_one.
  - apply Forall_forall. intros x [a [-> Ha]]%list_elem_of_fmap.
    repeat split; [apply NoDup_singleton|].
    intros b ->%list_elem_of_singleton. done.
  - rewrite <-list_fmap_compose. apply NoDup_fmap_2_strong; [|done].
    intros a b _ _. simpl. rewrite !clusterID_singleton. congruence.
  - intros T (HT & Hlen & Hincl).
    destruct T as [|a [|? ?]]; simplify_eq/=.
    apply list_elem_of_fmap. exists [a]. split; [done|].
    apply list_elem_of_fmap. exists a. split; [done|].
    apply Hincl. left.
Qed.

Lemma enumerates_full (set : list Z) :
  NoDup set → enumerates set (length set) [set].
Proof.
  intros Hset. repeat split.
  - by rewrite binom_diag.
  - by repeat constructor.
  - simpl. apply NoDup_singleton.
  - intros T HT. simpl. apply list_elem_of_singleton.
    apply clusterID_perm. by apply subset_of_size_perm.
Qed.

Lemma enumerates_none (set : list Z) (k : nat) :
  (length set < k)%nat → enumerates set k [].
Proof.
  intros Hlt. repeat split.
  - by rewrite binom_gt.
  - constructor.
  - constructor.
  - intros T HT%subset_of_size_length. lia.
Qed.

Lemma enumerates_step (s : Z) (rest : list Z) (k : nat) (L1 L2 : list (list Z)) :
  NoDup (s :: rest) →
  enumerates rest (Datatypes.S k) L1 → enumerates rest k L2 →
  enumerates (s :: rest) (Datatypes.S k) (L1 ++ map (λ srest, srest ++ [s]) L2).
Proof.
  intros [Hs Hrest]%NoDup_cons (Hl1 & Hf1 & Hn1 & Hc1) (Hl2 & Hf2 & Hn2 & Hc2).
  rewrite Forall_forall in Hf1, Hf2.
  assert (Happ : ∀ x, is_subset_of_size rest k x →
                      is_subset_of_size (s :: rest) (Datatypes.S k) (x ++ [s])).
  { intros x (Hx & Hlen & Hincl). repeat split.
    - apply NoDup_app. repeat split; [done| |apply NoDup_singleton].
      intros a Ha ->%list_elem_of_singleton. by apply Hs, Hincl.
    - rewrite length_app. simpl. lia.
    - intros a [Ha| ->%list_elem_of_singleton]%elem_of_app; [right; by apply Hincl | left]. }
  repeat split.
  - rewrite length_app, length_map, Hl1, Hl2. simpl. done.
  - apply Forall_app. split; apply Forall_forall.
    + intros x (Hx & Hlen & Hincl)%Hf1. repeat split; [done..|].
      intros a Ha. right. by apply Hincl.
    + intros y [x [-> Hx]]%list_elem_of_fmap. by apply Happ, Hf2.
  - rewrite fmap_app. apply NoDup_app. repeat split; [done| |].
    + intros id [x [-> Hx]]%list_elem_of_fmap [y' [Hid [y [-> Hy]]%list_elem_of_fmap]]%list_elem_of_fmap.
      apply clusterID_perm in Hid.
      apply Hs. destruct (Hf1 x Hx) as (_ & _ & Hincl). apply Hincl.
      rewrite Hid. apply elem_of_app. right. by left.
    + rewrite <-list_fmap_compose. apply NoDup_fmap_2_strong.
      * intros x y Hx Hy Hid. simpl in Hid.
        apply clusterID_perm, Permutation_app_inv_r, clusterID_perm in Hid.
        apply list_elem_of_lookup in Hx as [i Hi], Hy as [j Hj].
        assert (i = j) as ->; [|congruence].
        eapply NoDup_lookup; [exact Hn2|..]; rewrite list_lookup_fmap.
        -- by rewrite Hi.
        -- by rewrite Hj, Hid.
      * by apply NoDup_fmap_1 in Hn2.
  - intros T (HT & Hlen & Hincl). rewrite fmap_app. apply elem_of_app.
    destruct (decide (s ∈ T)) as [Hin|Hnin].
    + right. apply elem_of_Permutation in Hin as [T' HT'].
      assert (is_subset_of_size rest k T') as Hsub.
      { rewrite HT' in HT, Hlen, Hincl. apply NoDup_cons in HT as [HsT' HT'nd].
        repeat split; [done|simpl in Hlen; lia|].
        intros a Ha. assert (a ∈ s :: rest) as [->|]%elem_of_cons; [|done..].
        apply Hincl. by right. }
      apply Hc2 in Hsub as [x [Hid Hx]]%list_elem_of_fmap.
      apply list_elem_of_fmap. exists (x ++ [s]). split.
      * apply clusterID_perm. rewrite HT'. apply clusterID_perm in Hid.
        rewrite Hid. by rewrite <-Permutation_cons_append.
      * apply list_elem_of_fmap. eauto.
    + left. apply Hc1. repeat split; [done..|].
      intros a Ha. assert (a ∈ s :: rest) as [->|]%elem_of_cons; [|done..].
      by apply Hincl.
Qed.

(** On a duplicate-free list and a positive size, [subsets] returns, and
    what it returns enumerates the subsets of that size. *)
Lemma subsets_enumerates (set : list Z) :
  NoDup set → ∀ size, 0 < size →
  ∃ L, subsets set size false = Ok L ∧ enumerates set (Z.to_nat size) L.
Proof.
  induction set as [|s rest IH]; intros Hset size Hpos;
    rewrite subsets_unfold, bool_decide_eq_true_2 by done; simpl.
  - assert ((size =? len (@nil Z)) = false) as ->
      by (apply Z.eqb_neq; unfold len; simpl; lia).
    assert ((size >? len (@nil Z)) = true) as ->
      by (rewrite Z.gtb_ltb; apply Z.ltb_lt; unfold len; simpl; lia).
    eexists; split; [done|]. apply enumerates_none. simpl. lia.
  - pose proof Hset as [Hs Hrest]%NoDup_cons.
    destruct (Z.eqb_spec size (len (s :: rest))) as [->|Hne].
    { eexists; split; [done|]. unfold len. rewrite Nat2Z.id. by apply enumerates_full. }
    rewrite Z.gtb_ltb. destruct (Z.ltb_spec (len (s :: rest)) size) as [Hgt|Hle].
    { eexists; split; [done|]. apply enumerates_none. unfold len in *. lia. }
    assert ((size <=? 0) = false) as -> by lia.
    destruct (Z.eqb_spec size 1) as [->|Hne1].
    { eexists; split; [done|]. by apply (enumerates_singletons (s :: rest)). }
    destruct (IH Hrest size) as (L1 & -> & HL1); [lia|].
    destruct (IH Hrest (size - 1)) as (L2 & -> & HL2); [lia|].
    simpl. eexists; split; [done|].
    replace (Z.to_nat size) with (Datatypes.S (Z.to_nat (size - 1))) in * by lia.
    by apply enumerates_step.
Qed.

(** ** The monad *)

Section MonadFacts.
Context {SC : Scalar}.

Lemma bind_ok {A B} (c : M A) (k : A → M B) σ r σ' :
  bind c k σ = (Ok r, σ') ↔
  ∃ a σ1, c σ = (Ok a, σ1) ∧ k a σ1 = (Ok r, σ').
Proof.
  unfold bind. split.
  - destruct (c σ) as [[a|e] σ1]; [eauto | discriminate].
  - intros (a & σ1 & -> & Hk). done.
Qed.

Lemma bind_raise {A B} (c : M A) (k : A → M B) σ e σ' :
  c σ = (Raise e, σ') → bind c k σ = (Raise e, σ').
Proof. unfold bind. by intros ->. Qed.

Lemma lift_ok {A} (x : Result A) σ r σ' :
  lift x σ = (Ok r, σ') ↔ x = Ok r ∧ σ' = σ.
Proof. unfold lift. split; [intros [= -> ->] | intros [-> ->]]; done. Qed.

(** An invariant of a loop holds when the loop ends normally. *)
Lemma foldM_ok_ind {A B} (body : B → A → M B)
    (I : list A → B → Registry → Prop) l acc σ r σ' :
  I [] acc σ →
  (∀ done x acc1 σ1 acc2 σ2,
      I done acc1 σ1 → x ∈ l → body acc1 x σ1 = (Ok acc2, σ2) →
      I (done ++ [x]) acc2 σ2) →
  foldM body acc l σ = (Ok r, σ') → I l r σ'.
Proof.
  intros Hinit Hstep.
  cut (∀ rest done acc1 σ1, done ++ rest = l → I done acc1 σ1 →
         foldM body acc1 rest σ1 = (Ok r, σ') → I l r σ').
  { intros Hgen. by apply (Hgen l []). }
  induction rest as [|x rest IH]; intros done acc1 σ1 Hl HI Hrun; simpl in Hrun.
  - injection Hrun as -> ->. by rewrite app_nil_r in Hl; subst.
  - apply bind_ok in Hrun as (acc2 & σ2 & Hbody & Hrest).
    apply (IH (done ++ [x]) acc2 σ2); [by rewrite <-app_assoc | | done].
    eapply Hstep; [done | | done].
    rewrite <-Hl. apply elem_of_app. right. left.
Qed.

(** A loop whose body always succeeds under an invariant succeeds. *)
Lemma foldM_total {A B} (body : B → A → M B) (I : Registry → Prop) l :
  (∀ acc x σ1, x ∈ l → I σ1 →
      ∃ acc' σ2, body acc x σ1 = (Ok acc', σ2) ∧ I σ2) →
  ∀ acc σ, I σ → ∃ r σ', foldM body acc l σ = (Ok r, σ') ∧ I σ'.
Proof.
  induction l as [|x l IH]; intros Hbody acc σ HI; simpl.
  - by exists acc, σ.
  - destruct (Hbody acc x σ) as (acc' & σ2 & Hx & HI2); [left | done |].
    destruct (IH (λ a y s Hy, Hbody a y s (list_elem_of_further _ _ _ Hy)) acc' σ2 HI2)
      as (r & σ' & Hrun & HI').
    exists r, σ'. split; [|done]. apply bind_ok. eauto.
Qed.
End MonadFacts.

(** ** The registry invariant *)

Section RegistryInvariant.
Context {SC : Scalar} {CO : Collaborators SC}.
Variables (coocMat : matrix) (meanFieldRef : bool) (priorLmbda : scal)
  (numSamples : option Z) (independentRef : bool)
  (meanFieldPriorLmbda : scal).

Local Abbreviation ok := (registry_ok coocMat meanFieldRef priorLmbda numSamples
                  independentRef meanFieldPriorLmbda).
Local Abbreviation start := (start coocMat meanFieldRef priorLmbda numSamples
                     independentRef meanFieldPriorLmbda).

Lemma elem_of_py_range_down (n x : Z) :
  x ∈ py_range_down n 0 ↔ 1 ≤ x ≤ n.
Proof.
  unfold py_range_down. rewrite elem_of_reverse, elem_of_seqZ. lia.
Qed.

Lemma subclusters_of_size_enumerates (c : list Z) (size : Z) :
  NoDup c → 0 < size →
  subsets c size false = Ok (subclusters_of_size c size) ∧
  enumerates c (Z.to_nat size) (subclusters_of_size c size).
Proof.
  intros Hc Hpos. unfold subclusters_of_size.
  destruct (subsets_enumerates c Hc size Hpos) as (L & -> & HL). done.
Qed.

Lemma strict_subclusters_elem (c x : list Z) :
  NoDup c → x ∈ strict_subclusters c →
  NoDup x ∧ x ⊆ c ∧ (1 ≤ length x < length c)%nat.
Proof.
  intros Hc [size [Hx Hsize]]%list_elem_of_bind.
  apply elem_of_py_range_down in Hsize. unfold len in Hsize.
  destruct (subclusters_of_size_enumerates c size Hc) as (_ & _ & Hall & _);
    [lia|].
  rewrite Forall_forall in Hall. destruct (Hall x Hx) as (? & ? & ?).
  repeat split; [done..|lia|lia].
Qed.

Lemma strict_subclusters_cover (c k : list Z) :
  NoDup c → k ≠ [] → NoDup k → k ⊆ c → clusterID k ≠ clusterID c →
  ∃ x, x ∈ strict_subclusters c ∧ clusterID x = clusterID k.
Proof.
  intros Hc Hne Hk Hincl Hid.
  assert (length k ≤ length c)%nat as Hle
    by (apply submseteq_length, NoDup_submseteq; done).
  assert (length k ≠ length c) as Hlen.
  { intros Heq. apply Hid, clusterID_perm.
    apply subset_of_size_perm; [done|]. by repeat split. }
  assert (length k ≠ 0%nat) by (destruct k; done).
  destruct (subclusters_of_size_enumerates c (Z.of_nat (length k)) Hc)
    as (_ & _ & _ & _ & Hcover); [lia|].
  rewrite Nat2Z.id in Hcover.
  assert (clusterID k ∈ clusterID <$> subclusters_of_size c (Z.of_nat (length k)))
    as (x & Hidx & Hx)%list_elem_of_fmap by (apply Hcover; by repeat split).
  exists x. split; [|done].
  apply list_elem_of_bind. exists (Z.of_nat (length k)). split; [done|].
  apply elem_of_py_range_down. unfold len. lia.
Qed.

Lemma memo_mono (σ σ' : Registry) (k : list Z) :
  deltaSdict σ ⊆ deltaSdict σ' → is_Some (deltaSdict σ !! k) →
  memo σ' k = memo σ k.
Proof.
  intros Hsub [v Hv]. unfold memo.
  by rewrite Hv, (lookup_weaken _ _ _ _ Hv Hsub).
Qed.

Lemma memo_list_mono (σ σ' : Registry) (L : list (list Z)) :
  deltaSdict σ ⊆ deltaSdict σ' →
  Forall (λ x, is_Some (deltaSdict σ !! clusterID x)) L →
  memo σ' ∘ clusterID <$> L = memo σ ∘ clusterID <$> L.
Proof.
  intros Hsub Hall. apply list_fmap_ext.
  intros i x Hx. simpl. apply memo_mono; [done|].
  eapply Forall_lookup_1 in Hall; eauto.
Qed.

Lemma registry_ok_empty : ok empty_registry.
Proof.
  split; simpl.
  - intros k. rewrite !lookup_empty. done.
  - intros k. rewrite lookup_empty. by intros [? ?].
  - intros k k'. rewrite lookup_empty. by intros [? ?].
  - intros k. rewrite lookup_empty, elem_of_nil. split; [by intros [? ?] | done].
  - intros [|? ?] ? ? ? ?; discriminate.
  - intros k v. by rewrite lookup_empty.
Qed.

(** Events other than a store do not touch the invariant. *)
Lemma registry_ok_emit (σ : Registry) (e : Event) :
  (∀ k, e ≠ EvStore k) → ok σ →
  ok (mkRegistry (deltaSdict σ) (deltaJdict σ) (e :: trace σ)).
Proof.
  intros He [Oboth Okey Oclosed Ostored Oorder Ovalue]. split; simpl; try done.
  - intros k. rewrite Ostored, elem_of_cons. naive_solver.
  - intros [|e' newer] older k k' Htr; simplify_eq/=.
    + by destruct (He k).
    + eauto.
Qed.

Lemma registry_ok_S_events (σ : Registry) (c : list Z) :
  ok σ →
  ok (mkRegistry (deltaSdict σ) (deltaJdict σ)
        (EvNumeric c :: EvS c :: trace σ)).
Proof.
  intros Hok.
  apply (registry_ok_emit
           (mkRegistry (deltaSdict σ) (deltaJdict σ) (EvS c :: trace σ))
           (EvNumeric c)); [done|].
  by apply (registry_ok_emit σ).
Qed.

(** Writing the entry of a cluster whose strict sub-clusters are all
    present keeps the invariant. *)
Lemma registry_ok_store (σ : Registry) (c : list Z) (s : scal) (j : matrix) :
  ok σ → deltaSdict σ !! clusterID c = None → c ≠ [] → NoDup c →
  (∀ k', k' ≠ [] → NoDup k' → k' ⊆ c → clusterID k' ≠ clusterID c →
         is_Some (deltaSdict σ !! clusterID k')) →
  s = fold_left s_sub (memo σ ∘ clusterID <$> strict_subclusters c)
        (start c).1 →
  ok (mkRegistry (<[clusterID c := s]> (deltaSdict σ))
        (<[clusterID c := j]> (deltaJdict σ))
        (EvStore (clusterID c) :: trace σ)).
Proof.
  intros [Oboth Okey Oclosed Ostored Oorder Ovalue] Hfresh Hne Hc Hsubs Hs.
  set (σ' := mkRegistry _ _ _).
  assert (Hext : deltaSdict σ ⊆ deltaSdict σ') by (by apply insert_subseteq).
  assert (Hkeep : ∀ k, is_Some (deltaSdict σ !! k) → memo σ' k = memo σ k)
    by (intros; by apply memo_mono).
  assert (Hcid : ∀ k', k' ⊆ clusterID c → k' ⊆ c).
  { intros k' Hk a Ha. apply np_sort_elem. by apply Hk. }
  split; simpl.
  - intros k. rewrite !lookup_insert_is_Some, Oboth. done.
  - intros k [<-|[_ Hk]]%lookup_insert_is_Some; [|by apply Okey].
    repeat split.
    + intros Hnil. apply Hne. apply (f_equal length) in Hnil.
      rewrite clusterID_length in Hnil. by destruct c.
    + by apply np_sort_NoDup.
    + apply clusterID_idemp.
  - intros k k' Hk Hne' Hnd Hincl. apply lookup_insert_is_Some.
    destruct (decide (clusterID c = clusterID k')) as [|Hid]; [by left|].
    right. split; [done|].
    apply lookup_insert_is_Some in Hk as [<-|[_ Hk]]; [|by eapply Oclosed].
    apply Hsubs; [done..|by apply Hcid|done].
  - intros k. rewrite lookup_insert_is_Some, elem_of_cons, Ostored.
    destruct (decide (clusterID c = k)) as [->|]; naive_solver.
  - intros [|e' newer] older k k' Htr Hne' Hnd Hincl Hid; simplify_eq/=.
    + apply Ostored, Hsubs; [done..|by apply Hcid|done].
    + eauto.
  - intros k v [[<- <-]|[Hk Hv]]%lookup_insert_Some.
    + exists c. split; [done|]. rewrite Hs. f_equal.
      symmetry. apply memo_list_mono; [done|].
      apply Forall_forall. intros x Hx.
      destruct (strict_subclusters_elem c x Hc Hx) as (Hxnd & Hxin & Hxlen).
      apply Hsubs; [by destruct x; simpl in *; [lia|] | done | done |].
      intros Heq%(f_equal length). rewrite !clusterID_length in Heq. lia.
    + destruct (Ovalue k v Hv) as (B & HB & HvB).
      exists B. split; [done|]. rewrite HvB. f_equal.
      symmetry. apply memo_list_mono; [done|].
      destruct (Okey k) as (_ & Hknd & _); [by eexists|].
      assert (NoDup B) as HBnd.
      { apply np_sort_NoDup. unfold clusterID in HB. by rewrite HB. }
      apply Forall_forall. intros x Hx.
      destruct (strict_subclusters_elem B x HBnd Hx) as (Hxnd & Hxin & Hxlen).
      apply (Oclosed k); [by eexists | by destruct x; simpl in *; [lia|] | done |].
      intros a Ha. rewrite <-HB. apply np_sort_elem. by apply Hxin.
Qed.

Local Abbreviation post := (deltaS_post coocMat meanFieldRef priorLmbda numSamples
                    independentRef meanFieldPriorLmbda).
Local Abbreviation here := (deltaS_here coocMat meanFieldRef priorLmbda numSamples
                    independentRef meanFieldPriorLmbda).
Local Abbreviation full := (full coocMat priorLmbda numSamples).

(** [S] as [deltaS] calls it: always the numerical solver. *)
Lemma S_numeric (c : list Z) (σ : Registry) :
  c ≠ [] →
  S_ c coocMat false priorLmbda numSamples σ =
  (Ok (full c),
   mkRegistry (deltaSdict σ) (deltaJdict σ)
     (EvNumeric c :: EvS c :: trace σ)).
Proof.
  intros Hne. destruct c as [|a c]; [done|].
  unfold S_, bind, emit, ret; simpl.
  rewrite !andb_false_r. done.
Qed.

Lemma S_empty (useAnalyticResults : bool) (σ : Registry) :
  S_ [] coocMat useAnalyticResults priorLmbda numSamples σ =
  (Raise Exception,
   mkRegistry (deltaSdict σ) (deltaJdict σ) (EvS [] :: trace σ)).
Proof. done. Qed.

Lemma deltaS_here_unfold (fuel : nat) (c : list Z) (σ0 : Registry) :
  here (Datatypes.S fuel) c σ0 =
  (if (independentRef && meanFieldRef)
      || negb (independentRef || meanFieldRef)
   then raise Exception
   else
     σ ⟵ get_registry;
     match deltaSdict σ !! clusterID c with
     | Some dS =>
         match deltaJdict σ !! clusterID c with
         | Some dJ => ret (dS, dJ)
         | None => raise KeyError
         end
     | None =>
         full ⟵ S_ c coocMat false priorLmbda numSamples;
         acc ⟵ subtract_subclusters (here fuel) c
                 (subtract_reference c coocMat meanFieldRef independentRef
                    meanFieldPriorLmbda numSamples full);
         store_S (clusterID c) acc.1;;
         store_J (clusterID c) acc.2;;
         emit (EvStore (clusterID c));;
         ret acc
     end)%cx σ0.
Proof.
  unfold deltaS_here, subtract_subclusters. simpl.
  destruct ((independentRef && meanFieldRef)
            || negb (independentRef || meanFieldRef)); [done|].
  unfold bind. simpl.
  destruct (deltaSdict σ0 !! clusterID c); [done|].
  destruct (S_ c coocMat false priorLmbda numSamples σ0) as [[fl|] ?]; [|done].
  match goal with |- context [foldM ?f ?a ?l ?s] =>
    destruct (foldM f a l s) as [[[? ?]|] ?] end; done.
Qed.

Lemma subsets_ok_NoDup (c : list Z) (size : Z) (sort : bool) L :
  subsets c size sort = Ok L → NoDup c.
Proof.
  rewrite subsets_unfold. case_bool_decide; [done|]. discriminate.
Qed.

(** The inner loop of [deltaS] over a list of sub-clusters, given the
    post-condition of the recursive calls. *)
Lemma subtract_list_post (rec : list Z → M (scal * matrix)) (n : nat)
    (L : list (list Z)) (acc : scal * matrix) σ r σ' :
  (∀ sub σ1 r1 σ2, ok σ1 → rec sub σ1 = (Ok r1, σ2) → post sub σ1 r1 σ2) →
  ok σ → Forall (λ x, (length x < n)%nat) L →
  foldM (λ '(deltaScluster, deltaJcluster) subcluster,
      '(deltaSsubcluster, deltaJsubcluster) ⟵ rec subcluster;
      ret (s_sub deltaScluster deltaSsubcluster,
           m_sub deltaJcluster deltaJsubcluster))%cx acc L σ = (Ok r, σ') →
  ok σ' ∧ deltaSdict σ ⊆ deltaSdict σ' ∧
  evaluated (trace σ') = evaluated (trace σ) ∧
  trace σ `suffix_of` trace σ' ∧
  (∀ k, is_Some (deltaSdict σ' !! k) →
        is_Some (deltaSdict σ !! k) ∨ (length k < n)%nat) ∧
  Forall (λ x, is_Some (deltaSdict σ' !! clusterID x)) L ∧
  r.1 = fold_left s_sub (memo σ' ∘ clusterID <$> L) acc.1.
Proof.
  intros Hrec Hok Hlen Hrun.
  revert Hrun. apply foldM_ok_ind with
    (I := λ done a σi,
       ok σi ∧ deltaSdict σ ⊆ deltaSdict σi ∧
       evaluated (trace σi) = evaluated (trace σ) ∧
       trace σ `suffix_of` trace σi ∧
       (∀ k, is_Some (deltaSdict σi !! k) →
             is_Some (deltaSdict σ !! k) ∨ (length k < n)%nat) ∧
       Forall (λ x, is_Some (deltaSdict σi !! clusterID x)) done ∧
       a.1 = fold_left s_sub (memo σi ∘ clusterID <$> done) acc.1).
  - split_and!; [done|done|done|done|eauto|constructor|done].
  - intros done x [a ja] σ1 acc2 σ2 (Hok1 & Hsub1 & Hev1 & Htr1 & Hb1 & Hin1 & Ha1) Hx Hbody.
    apply bind_ok in Hbody as ([s j] & σ2' & Hcall & Hret).
    injection Hret as <- <-.
    destruct (Hrec x σ1 (s, j) σ2' Hok1 Hcall)
      as (Hok2 & Hsub2 & Hev2 & Htr2 & HS & HJ & Hb2 & _ & _ & _ & _).
    rewrite Forall_forall in Hlen. specialize (Hlen x Hx).
    split_and!.
    + done.
    + by etrans.
    + congruence.
    + by etrans.
    + intros k [Hk|Hk]%Hb2; [by apply Hb1 | right; lia].
    + apply Forall_app. split.
      * eapply Forall_impl; [exact Hin1|]. simpl. intros y [v Hv].
        exists v. by eapply lookup_weaken.
      * repeat constructor. by eexists.
    + simpl. rewrite fmap_app, fold_left_app. simpl.
      rewrite (memo_list_mono σ1 σ2') by done.
      simpl in Ha1. rewrite <-Ha1. f_equal.
      unfold memo. simpl in HS. by rewrite HS.
Qed.

Lemma py_range_down_nonempty (n : Z) : 1 ≤ n → py_range_down n 0 ≠ [].
Proof.
  intros Hn Hnil. assert (1 ∈ py_range_down n 0) as Hin
    by (apply elem_of_py_range_down; lia).
  rewrite Hnil in Hin. by apply elem_of_nil in Hin.
Qed.

(** The outer loop of [deltaS] over a list of sizes. *)
Lemma subtract_sizes_post (rec : list Z → M (scal * matrix))
    (c : list Z) (sizes : list Z) (acc : scal * matrix) σ r σ' :
  (∀ sub σ1 r1 σ2, ok σ1 → rec sub σ1 = (Ok r1, σ2) → post sub σ1 r1 σ2) →
  ok σ → Forall (λ x, 1 ≤ x < len c) sizes →
  foldM (λ acc size,
      subclusters ⟵ lift (subsets c size false);
      foldM (λ '(deltaScluster, deltaJcluster) subcluster,
          '(deltaSsubcluster, deltaJsubcluster) ⟵ rec subcluster;
          ret (s_sub deltaScluster deltaSsubcluster,
               m_sub deltaJcluster deltaJsubcluster))
        acc subclusters)%cx acc sizes σ = (Ok r, σ') →
  ok σ' ∧ deltaSdict σ ⊆ deltaSdict σ' ∧
  evaluated (trace σ') = evaluated (trace σ) ∧
  trace σ `suffix_of` trace σ' ∧
  (∀ k, is_Some (deltaSdict σ' !! k) →
        is_Some (deltaSdict σ !! k) ∨ (length k < length c)%nat) ∧
  Forall (λ x, is_Some (deltaSdict σ' !! clusterID x))
    (sizes ≫= subclusters_of_size c) ∧
  r.1 = fold_left s_sub
          (memo σ' ∘ clusterID <$> (sizes ≫= subclusters_of_size c))
          acc.1 ∧
  (sizes ≠ [] → NoDup c).
Proof.
  intros Hrec Hok Hsizes Hrun.
  revert Hrun. apply foldM_ok_ind with
    (I := λ done a σi,
       ok σi ∧ deltaSdict σ ⊆ deltaSdict σi ∧
       evaluated (trace σi) = evaluated (trace σ) ∧
       trace σ `suffix_of` trace σi ∧
       (∀ k, is_Some (deltaSdict σi !! k) →
             is_Some (deltaSdict σ !! k) ∨ (length k < length c)%nat) ∧
       Forall (λ x, is_Some (deltaSdict σi !! clusterID x))
         (done ≫= subclusters_of_size c) ∧
       a.1 = fold_left s_sub
               (memo σi ∘ clusterID <$> (done ≫= subclusters_of_size c))
               acc.1 ∧
       (done ≠ [] → NoDup c)).
  - split_and!; [done|done|done|done|eauto|constructor|done|done].
  - intros done x a1 σ1 a2 σ2 (Hok1 & Hsub1 & Hev1 & Htr1 & Hb1 & Hin1 & Ha1 & _) Hx Hbody.
    apply bind_ok in Hbody as (L & σ1' & [HL ->]%lift_ok & Hinner).
    pose proof (subsets_ok_NoDup _ _ _ _ HL) as Hc.
    rewrite Forall_forall in Hsizes. apply Hsizes in Hx.
    destruct (subclusters_of_size_enumerates c x Hc) as (HL' & _ & Hall & _);
      [lia|].
    assert (L = subclusters_of_size c x) as -> by congruence.
    apply subtract_list_post with (n := length c) in Hinner
      as (Hok2 & Hsub2 & Hev2 & Htr2 & Hb2 & Hin2 & Ha2); [|done|done|].
    2:{ eapply Forall_impl; [exact Hall|]. simpl.
        intros y (_ & Hy & _). unfold len in Hx. lia. }
    rewrite bind_app. simpl. rewrite app_nil_r.
    split_and!.
    + done.
    + by etrans.
    + congruence.
    + by etrans.
    + intros k [Hk|Hk]%Hb2; [by apply Hb1 | by right].
    + apply Forall_app. split; [|done].
      eapply Forall_impl; [exact Hin1|]. simpl. intros y [v Hv].
      exists v. by eapply lookup_weaken.
    + rewrite fmap_app, fold_left_app.
      rewrite (memo_list_mono σ1 σ2 (done ≫= subclusters_of_size c)) by done.
      by rewrite <-Ha1.
    + done.
Qed.

(** Both loops of [deltaS]. *)
Lemma subtract_subclusters_post (rec : list Z → M (scal * matrix))
    (c : list Z) (acc : scal * matrix) σ r σ' :
  (∀ sub σ1 r1 σ2, ok σ1 → rec sub σ1 = (Ok r1, σ2) → post sub σ1 r1 σ2) →
  ok σ →
  subtract_subclusters rec c acc σ = (Ok r, σ') →
  ok σ' ∧ deltaSdict σ ⊆ deltaSdict σ' ∧
  evaluated (trace σ') = evaluated (trace σ) ∧
  trace σ `suffix_of` trace σ' ∧
  (∀ k, is_Some (deltaSdict σ' !! k) →
        is_Some (deltaSdict σ !! k) ∨ (length k < length c)%nat) ∧
  Forall (λ x, is_Some (deltaSdict σ' !! clusterID x)) (strict_subclusters c) ∧
  r.1 = fold_left s_sub (memo σ' ∘ clusterID <$> strict_subclusters c) acc.1 ∧
  ((2 ≤ length c)%nat → NoDup c).
Proof.
  intros Hrec Hok Hrun.
  apply subtract_sizes_post in Hrun as (?&?&?&?&?&?&?&Hnd); [|done|done|].
  - split_and!; try done.
    intros Hlen. apply Hnd, py_range_down_nonempty. unfold len. lia.
  - apply Forall_forall. intros x Hx%elem_of_py_range_down. lia.
Qed.

(** The post-condition of [deltaS], by induction on the depth of the
    recursion. *)
Lemma deltaS_here_post (fuel : nat) :
  ∀ c σ r σ', ok σ → here fuel c σ = (Ok r, σ') → post c σ r σ'.
Proof.
  induction fuel as [|fuel IH]; intros c σ r σ' Hok Hrun; [done|].
  rewrite deltaS_here_unfold in Hrun.
  destruct ((independentRef && meanFieldRef)
            || negb (independentRef || meanFieldRef)); [done|].
  apply bind_ok in Hrun as (σ0 & σ1 & [= <- <-] & Hrun).
  destruct (deltaSdict σ !! clusterID c) as [dS|] eqn:HdS.
  - (* memo hit *)
    destruct (deltaJdict σ !! clusterID c) as [dJ|] eqn:HdJ; [|done].
    injection Hrun as <- <-.
    destruct (ok_key _ _ _ _ _ _ _ Hok (clusterID c)) as (Hne & Hnd & _);
      [by eexists|].
    split_and!; [done|done|done|done|done|done|eauto|congruence|congruence| |].
    + by apply np_sort_NoDup.
    + intros ->. done.
  - (* computed *)
    destruct (decide (c = [])) as [->|Hne]; [by rewrite (bind_raise _ _ _ _ _ (S_empty _ _)) in Hrun|].
    apply bind_ok in Hrun as (fl & σ1 & HS & Hrun).
    rewrite S_numeric in HS by done. injection HS as <- <-.
    apply bind_ok in Hrun as (acc & σ2 & Hloops & Hrun).
    injection Hrun as <- <-. simpl.
    apply subtract_subclusters_post in Hloops
      as (Hok2 & Hsub2 & Hev2 & Htr2 & Hb2 & Hin2 & Hacc & Hnd2);
      [|exact IH|by apply registry_ok_S_events].
    simpl in *.
    assert (NoDup c) as Hc.
    { destruct c as [|a [|b c]]; [done|apply NoDup_singleton|].
      apply Hnd2. simpl. lia. }
    assert (deltaSdict σ2 !! clusterID c = None) as Hfresh.
    { apply eq_None_not_Some. intros [Hk|Hk]%Hb2.
      - rewrite HdS in Hk. by destruct Hk.
      - rewrite clusterID_length in Hk. lia. }
    assert (Hsubs : ∀ k', k' ≠ [] → NoDup k' → k' ⊆ c →
               clusterID k' ≠ clusterID c →
               is_Some (deltaSdict σ2 !! clusterID k')).
    { intros k' ? ? ? ?.
      destruct (strict_subclusters_cover c k') as (x & Hx & <-); [done..|].
      rewrite Forall_forall in Hin2. by apply Hin2. }
    split_and!.
    + by apply registry_ok_store.
    + simpl. etrans; [exact Hsub2|]. by apply insert_subseteq.
    + simpl. done.
    + simpl. apply suffix_cons_r. etrans; [|exact Htr2].
      by do 2 apply suffix_cons_r.
    + simpl. by rewrite lookup_insert_eq.
    + simpl. by rewrite lookup_insert_eq.
    + simpl. intros k [<-|[_ Hk]]%lookup_insert_is_Some.
      * right. by rewrite clusterID_length.
      * apply Hb2 in Hk as [|]; [by left | right; lia].
    + intros _. rewrite Hacc. f_equal. symmetry.
      apply memo_list_mono; simpl; [by apply insert_subseteq | done].
    + intros _. simpl. by apply suffix_cons_r.
    + done.
    + done.
Qed.

(** On a registry satisfying the invariant, in a valid reference mode
    and with enough fuel, [deltaS] returns on every non-empty
    duplicate-free cluster. *)
Lemma deltaS_here_total (fuel : nat) :
  xorb independentRef meanFieldRef = true →
  ∀ c σ, ok σ → c ≠ [] → NoDup c → (length c < fuel)%nat →
  ∃ r σ', here fuel c σ = (Ok r, σ').
Proof.
  intros Hmode. induction fuel as [|fuel IH]; intros c σ Hok Hne Hc Hlen; [lia|].
  rewrite deltaS_here_unfold.
  assert ((independentRef && meanFieldRef)
          || negb (independentRef || meanFieldRef) = false) as ->
    by (by destruct independentRef, meanFieldRef).
  unfold bind at 1. simpl.
  destruct (deltaSdict σ !! clusterID c) as [dS|] eqn:HdS.
  - destruct (proj1 (ok_both _ _ _ _ _ _ _ Hok (clusterID c))) as [dJ ->];
      [by eexists|]. by eexists _, _.
  - unfold bind at 1. rewrite S_numeric by done.
    set (σ1 := mkRegistry _ _ _).
    assert (ok σ1) as Hok1 by (by apply registry_ok_S_events).
    assert (∃ acc σ2, subtract_subclusters (here fuel) c
               (subtract_reference c coocMat meanFieldRef independentRef
                  meanFieldPriorLmbda numSamples (full c)) σ1
             = (Ok acc, σ2)) as (acc & σ2 & Hloops).
    { unfold subtract_subclusters.
      edestruct (foldM_total (A:=Z) (B:=scal * matrix)) with (I := ok)
        as (acc & σ2 & Hrun & _); [|exact Hok1|by eauto].
      intros a size σa Hsize%elem_of_py_range_down Hoka.
      destruct (subclusters_of_size_enumerates c size Hc) as (-> & _ & Hall & _);
        [lia|].
      unfold bind at 1. simpl.
      rewrite Forall_forall in Hall.
      eapply foldM_total; [|done].
      intros [a' ja'] sub σb Hsub Hokb.
      destruct (Hall sub Hsub) as (Hsnd & Hslen & _).
      destruct (IH sub σb) as ([s j] & σc & Hcall); [done| |done| |].
      { destruct sub; [simpl in *; lia | done]. }
      { unfold len in Hsize. lia. }
      exists (s_sub a' s, m_sub ja' j), σc. split.
      - unfold bind. by rewrite Hcall.
      - by destruct (deltaS_here_post _ _ _ _ _ Hokb Hcall). }
    unfold bind. rewrite Hloops. simpl. by eexists _, _.
Qed.

(** [deltaS] proper: the default of [meanFieldPriorLmbda] resolved and
    the fuel fixed by the length of the cluster. *)
Lemma deltaS_unfold (c : list Z) (mfpl : option scal) (σ : Registry) :
  default priorLmbda mfpl = meanFieldPriorLmbda →
  deltaS c coocMat meanFieldRef priorLmbda numSamples independentRef mfpl σ
  = here (Datatypes.S (length c)) c σ.
Proof. intros <-. unfold deltaS, deltaS_here. by destruct mfpl. Qed.
End RegistryInvariant.

(** ** Sublists and the identities of the subsets of a cluster *)

Lemma elem_of_sublists (l x : list Z) : x ∈ sublists l ↔ x `sublist_of` l.
Proof.
  split.
  - revert x. induction l as [|a l IH]; intros x; simpl.
    + intros ->%list_elem_of_singleton. constructor.
    + intros [Hx|[y [-> Hy]]%list_elem_of_fmap]%elem_of_app.
      * apply sublist_cons. by apply IH.
      * apply sublist_skip. by apply IH.
  - induction 1 as [|a x l _ IH|a x l _ IH]; simpl.
    + by left.
    + apply elem_of_app. right. apply list_elem_of_fmap. eauto.
    + apply elem_of_app. by left.
Qed.

Lemma NoDup_sublists (l : list Z) : NoDup l → NoDup (sublists l).
Proof.
  induction 1 as [|a l Ha Hl IH]; simpl; [apply NoDup_singleton|].
  apply NoDup_app. split_and!; [done| |].
  - intros x Hx%elem_of_sublists [y [-> Hy]]%list_elem_of_fmap.
    apply Ha. eapply sublist_subseteq; [exact Hx|]. left.
  - apply NoDup_fmap_2; [|done]. by intros ? ? [=].
Qed.

Lemma sorted_sublist (x l : list Z) :
  x `sublist_of` l → StronglySorted Z.le l → StronglySorted Z.le x.
Proof.
  induction 1 as [|a x l Hsub IH|a x l Hsub IH].
  - done.
  - intros [Hall Hs]%StronglySorted_cons. apply StronglySorted_cons.
    split; [|by apply IH].
    rewrite Forall_forall in Hall |- *. intros b Hb.
    apply Hall. by eapply sublist_subseteq.
  - intros [_ Hs]%StronglySorted_cons. by apply IH.
Qed.

Lemma sorted_subset_sublist (l : list Z) :
  StronglySorted Z.le l → NoDup l →
  ∀ x, StronglySorted Z.le x → NoDup x → x ⊆ l → x `sublist_of` l.
Proof.
  induction l as [|a l IH]; intros Hl Hnd x Hx Hxnd Hincl.
  - destruct x as [|b x]; [done|].
    by destruct (not_elem_of_nil b); apply Hincl; left.
  - apply StronglySorted_cons in Hl as [Hal Hl].
    apply NoDup_cons in Hnd as [Ha Hnd].
    rewrite Forall_forall in Hal.
    destruct x as [|b x]; [apply sublist_nil_l|].
    apply StronglySorted_cons in Hx as [Hbx Hx].
    apply NoDup_cons in Hxnd as [Hb Hxnd].
    rewrite Forall_forall in Hbx.
    destruct (decide (b = a)) as [->|Hne].
    + apply sublist_skip, IH; [done..|].
      intros y Hy. assert (y ∈ a :: l) as [->|]%elem_of_cons; [|done..].
      apply Hincl. by right.
    + apply sublist_cons, IH; [done|done| | |].
      * apply StronglySorted_cons. split; [by apply Forall_forall|done].
      * by apply NoDup_cons.
      * intros y Hy.
        assert (b ∈ l) as Hbl.
        { assert (b ∈ a :: l) as [->|]%elem_of_cons by (apply Hincl; left); done. }
        apply Hal in Hbl.
        assert (b ≤ y) as Hby.
        { apply elem_of_cons in Hy as [->|Hy]; [lia|by apply Hbx]. }
        assert (y ∈ a :: l) as [->|]%elem_of_cons by (by apply Hincl); [lia|done].
Qed.

Lemma identity_sorted (k : list Z) :
  clusterID k = k ↔ StronglySorted Z.le k.
Proof.
  split; [intros <-; apply np_sort_sorted | apply np_sort_fixed].
Qed.

(** The members of [nonempty_subsets c] are exactly the identities of
    the non-empty subsets of [c]. *)
Lemma elem_of_nonempty_subsets (c k : list Z) :
  NoDup c →
  k ∈ nonempty_subsets c ↔ k ≠ [] ∧ NoDup k ∧ clusterID k = k ∧ k ⊆ c.
Proof.
  intros Hc. unfold nonempty_subsets.
  rewrite list_elem_of_filter, elem_of_sublists.
  assert (NoDup (clusterID c)) as Hidnd by (by apply np_sort_NoDup).
  pose proof (np_sort_sorted c) as Hids.
  split.
  - intros (Hne & Hsub). split_and!; [done| | |].
    + by eapply sublist_NoDup.
    + apply identity_sorted. by eapply sorted_sublist.
    + intros a Ha. eapply np_sort_elem, sublist_subseteq; done.
  - intros (Hne & Hnd & Hid & Hincl). split; [done|].
    apply sorted_subset_sublist; [done..|by apply identity_sorted|done|].
    intros a Ha. apply np_sort_elem. by apply Hincl.
Qed.

Lemma NoDup_nonempty_subsets (c : list Z) :
  NoDup c → NoDup (nonempty_subsets c).
Proof.
  intros Hc. apply NoDup_filter, NoDup_sublists. by apply np_sort_NoDup.
Qed.

Section Decomposition.
Context {SC : Scalar} {CO : Collaborators SC}.

Lemma NoDup_ids_of_sizes (c : list Z) (sizes : list Z) :
  NoDup c → NoDup sizes → Forall (λ s, 1 ≤ s) sizes →
  NoDup (clusterID <$> (sizes ≫= subclusters_of_size c)).
Proof.
  intros Hc. induction 1 as [|s sizes Hs Hnd IH]; intros Hpos; [constructor|].
  apply Forall_cons in Hpos as [Hs1 Hpos].
  rewrite bind_cons, fmap_app. apply NoDup_app.
  destruct (subclusters_of_size_enumerates c s Hc) as (_ & _ & Hall & HndL & _);
    [lia|].
  rewrite Forall_forall in Hall.
  split_and!; [done| |by apply IH].
  intros id [x [-> Hx]]%list_elem_of_fmap
         [y [Hid [s' [Hy Hs']]%list_elem_of_bind]]%list_elem_of_fmap.
  rewrite Forall_forall in Hpos.
  destruct (subclusters_of_size_enumerates c s' Hc) as (_ & _ & Hall' & _);
    [by specialize (Hpos s' Hs'); lia|].
  rewrite Forall_forall in Hall'.
  destruct (Hall x Hx) as (_ & Hlx & _), (Hall' y Hy) as (_ & Hly & _).
  apply (f_equal length) in Hid. rewrite !clusterID_length in Hid.
  assert (s = s') as -> by (specialize (Hpos s' Hs'); lia). done.
Qed.

(** The clusters whose contributions [deltaS] combines for [c] -- its
    own and those of the sub-clusters its loops visit -- are, up to
    order, the non-empty subsets of [c]. *)
Lemma decomposition_perm (c : list Z) :
  NoDup c → c ≠ [] →
  nonempty_subsets c ≡ₚ
  clusterID c :: (clusterID <$> strict_subclusters c).
Proof.
  intros Hc Hne. apply NoDup_Permutation.
  - by apply NoDup_nonempty_subsets.
  - apply NoDup_cons. split.
    + intros [x [Hid Hx]]%list_elem_of_fmap.
      destruct (strict_subclusters_elem c x Hc Hx) as (_ & _ & Hlen).
      apply (f_equal length) in Hid. rewrite !clusterID_length in Hid. lia.
    + apply NoDup_ids_of_sizes; [done| |].
      * unfold py_range_down. rewrite reverse_Permutation. apply NoDup_seqZ.
      * apply Forall_forall. intros s Hs%elem_of_py_range_down. lia.
  - intros k. rewrite elem_of_nonempty_subsets by done.
    rewrite elem_of_cons, list_elem_of_fmap. split.
    + intros (Hkne & Hknd & Hkid & Hkin).
      destruct (decide (clusterID k = clusterID c)) as [Heq|Hneq];
        [left; congruence|].
      right. destruct (strict_subclusters_cover c k) as (x & Hx & Hidx);
        [done..|]. exists x. split; [congruence|done].
    + intros [->|[x [-> Hx]]].
      * split_and!.
        -- intros Hnil%(f_equal length). rewrite clusterID_length in Hnil.
           by destruct c.
        -- by apply np_sort_NoDup.
        -- apply clusterID_idemp.
        -- intros a Ha. by apply np_sort_elem.
      * destruct (strict_subclusters_elem c x Hc Hx) as (Hxnd & Hxin & Hxlen).
        split_and!.
        -- intros Hnil%(f_equal length). rewrite clusterID_length in Hnil.
           simpl in Hnil. lia.
        -- by apply np_sort_NoDup.
        -- apply clusterID_idemp.
        -- intros a Ha. apply Hxin. by apply np_sort_elem.
Qed.
End Decomposition.

(** ** Sums in exact arithmetic *)

Section Sums.
Context {SC : Scalar} (laws : ScalarLaws SC).

Lemma sum_over_perm (f : list Z → scal) (l k : list (list Z)) :
  l ≡ₚ k → sum_over f l = sum_over f k.
Proof.
  destruct laws as [Hcomm Hassoc _ _ _].
  induction 1 as [|x l k _ IH|x y l|l k m _ IH1 _ IH2]; simpl.
  - done.
  - by rewrite IH.
  - rewrite !Hassoc. f_equal. apply Hcomm.
  - congruence.
Qed.

Lemma sum_over_ext (f g : list Z → scal) (l : list (list Z)) :
  (∀ x, x ∈ l → f x = g x) → sum_over f l = sum_over g l.
Proof.
  induction l as [|x l IH]; intros Hfg; simpl; [done|].
  rewrite Hfg by left. rewrite IH; [done|].
  intros y Hy. apply Hfg. by right.
Qed.

Lemma sum_over_fmap (f : list Z → scal) (g : list Z → list Z)
    (l : list (list Z)) :
  sum_over f (g <$> l) = foldr s_add s_zero (f ∘ g <$> l).
Proof. induction l as [|x l IH]; simpl; [done|]. by f_equal. Qed.

(** Subtracting a list of terms and adding their sum back. *)
Lemma fold_sub_add_back (l : list scal) (a : scal) :
  s_add (fold_left s_sub l a) (foldr s_add s_zero l) = a.
Proof.
  destruct laws as [Hcomm Hassoc Hzero Hsa _].
  revert a. induction l as [|x l IH]; intros a; simpl.
  - apply Hzero.
  - rewrite (Hcomm x), Hassoc, IH. apply Hsa.
Qed.

Lemma add_cancel_r (x y z : scal) : s_add x z = s_add y z → x = y.
Proof.
  destruct laws as [_ _ _ _ Has].
  intros Heq. by rewrite <-(Has x z), Heq, Has.
Qed.
End Sums.

(** ** The decomposition [deltaS] *)

Section DeltaSFacts.
Context {SC : Scalar} {CO : Collaborators SC}.
Variables (coocMat : matrix) (meanFieldRef : bool) (priorLmbda : scal)
  (numSamples : option Z) (independentRef : bool)
  (meanFieldPriorLmbda : scal).

Local Abbreviation ok := (registry_ok coocMat meanFieldRef priorLmbda
  numSamples independentRef meanFieldPriorLmbda).
Local Abbreviation here := (deltaS_here coocMat meanFieldRef priorLmbda
  numSamples independentRef meanFieldPriorLmbda).
Local Abbreviation start := (start coocMat meanFieldRef priorLmbda
  numSamples independentRef meanFieldPriorLmbda).
Local Abbreviation full_entropy := (full_entropy coocMat priorLmbda numSamples).
Local Abbreviation reference_entropy :=
  (reference_entropy coocMat numSamples independentRef meanFieldPriorLmbda).

Lemma start_entropy (c : list Z) :
  xorb independentRef meanFieldRef = true →
  (start c).1 = s_sub (full_entropy c) (reference_entropy c).
Proof.
  unfold start_def, reference_entropy_def, subtract_reference, full. simpl.
  destruct independentRef, meanFieldRef; try done; intros _;
    by repeat case_match.
Qed.

(** A stored value that was obtained by the subtraction loops
    reconstructs the full entropy. *)
Lemma round_trip_of_value (laws : ScalarLaws SC) (σ : Registry) (c : list Z) :
  xorb independentRef meanFieldRef = true →
  NoDup c → c ≠ [] →
  memo σ (clusterID c) =
    fold_left s_sub (memo σ ∘ clusterID <$> strict_subclusters c) (start c).1 →
  full_entropy c =
    s_add (reference_entropy c) (sum_over (memo σ) (nonempty_subsets c)).
Proof.
  intros Hmode Hc Hne Hv.
  rewrite (sum_over_perm laws _ _ _ (decomposition_perm c Hc Hne)).
  simpl. rewrite (sum_over_fmap (memo σ) clusterID), Hv.
  rewrite (fold_sub_add_back laws), start_entropy by done.
  rewrite (s_add_comm _ laws). symmetry. apply (s_sub_add _ laws).
Qed.

(** A successful call leaves both entries of the cluster in the
    registry, whatever the registry was. *)
Lemma deltaS_here_stored (fuel : nat) (c : list Z) σ r σ' :
  here fuel c σ = (Ok r, σ') →
  deltaSdict σ' !! clusterID c = Some r.1 ∧
  deltaJdict σ' !! clusterID c = Some r.2 ∧
  (independentRef && meanFieldRef)
    || negb (independentRef || meanFieldRef) = false.
Proof.
  destruct fuel as [|fuel]; [done|].
  rewrite deltaS_here_unfold.
  destruct ((independentRef && meanFieldRef)
            || negb (independentRef || meanFieldRef)); [done|].
  intros (σ0 & σ1 & [= <- <-] & Hrun)%bind_ok.
  destruct (deltaSdict σ !! clusterID c) as [dS|] eqn:HdS.
  - destruct (deltaJdict σ !! clusterID c) as [dJ|] eqn:HdJ; [|done].
    by injection Hrun as <- <-.
  - apply bind_ok in Hrun as (fl & σ1 & _ & Hrun).
    apply bind_ok in Hrun as (acc & σ2 & _ & Hrun).
    injection Hrun as <- <-. simpl. by rewrite !lookup_insert_eq.
Qed.

Lemma deltaS_here_hit (fuel : nat) (c : list Z) σ dS dJ :
  (independentRef && meanFieldRef)
    || negb (independentRef || meanFieldRef) = false →
  deltaSdict σ !! clusterID c = Some dS →
  deltaJdict σ !! clusterID c = Some dJ →
  here (Datatypes.S fuel) c σ = (Ok (dS, dJ), σ).
Proof.
  intros Hmode HdS HdJ. rewrite deltaS_here_unfold, Hmode.
  unfold bind, get_registry. by rewrite HdS, HdJ.
Qed.
End DeltaSFacts.

Lemma Z_scalar_laws : ScalarLaws Z_scalar.
Proof. split; simpl; intros; lia. Qed.

Lemma Z_gt_transitive : GtTransitive Z_scalar.
Proof. intros x t1 t2. simpl. lia. Qed.

Lemma sum_over_foldr {SC : Scalar} (f : list Z → scal) (keys : list (list Z)) :
  sum_over f keys = foldr s_add s_zero (f <$> keys).
Proof.
  unfold sum_over. induction keys as [|k keys IH]; [done|].
  rewrite fmap_cons. cbn [foldr]. by rewrite IH.
Qed.




(** C2.  Memoization idempotence and canonical identity: after a
    successful call of [deltaS] on a cluster, a second call on the same
    index set, in any order of the indices, returns the same pair and
    leaves the registry -- the dictionaries and the trace of entropy
    computations -- exactly as it was. *)
Theorem deltaS_memo_idempotent {SC : Scalar} {CO : Collaborators SC}
    (coocMat : matrix) (meanFieldRef : bool) (priorLmbda : scal)
    (numSamples : option Z) (independentRef : bool)
    (meanFieldPriorLmbda : option scal) (c c' : list Z)
    (σ : Registry) (r : scal * matrix) (σ1 : Registry) :
  deltaS c coocMat meanFieldRef priorLmbda numSamples independentRef
    meanFieldPriorLmbda σ = (Ok r, σ1) →
  c ≡ₚ c' →
  deltaS c' coocMat meanFieldRef priorLmbda numSamples independentRef
    meanFieldPriorLmbda σ1 = (Ok r, σ1).
Proof.
  intros Hrun Hperm.
  rewrite (deltaS_unfold _ _ _ _ _ (default priorLmbda meanFieldPriorLmbda))
    in Hrun |- * by done.
  apply deltaS_here_stored in Hrun as (HS & HJ & Hmode).
  apply clusterID_perm in Hperm. rewrite Hperm in HS, HJ.
  destruct r as [dS dJ]. by apply deltaS_here_hit.
Qed.

Lemma deltaS_memo_idempotent_witness :
  let coocMat : matrix := [[3; 2; 2]; [2; 3; 2]; [2; 2; 3]] in
  let first := deltaS [2; 0; 1] coocMat false 0 None true None empty_registry in
  deltaS [0; 1; 2] coocMat false 0 None true None first.2 =
  (Ok (168, [[0; 0; 0]; [0; 0; 0]; [0; 0; 0]]), first.2).
Proof.
  intros coocMat first.
  apply (deltaS_memo_idempotent coocMat false 0 None true None
           [2; 0; 1] [0; 1; 2] empty_registry).
  - vm_compute. reflexivity.
  - apply (Permutation_cons_append [0; 1] 2).
Defined.



(** C6 (as amended).  [S] computes the size-1 and size-2 closed forms
    only when it is called with [useAnalyticResults]; called without it,
    as [deltaS] does, it hands every non-empty cluster -- also one of
    size 1 or 2 -- to the numerical solver
    [findJmatrixAnalytic_CoocMat] on the cluster's co-occurrence block. *)
Theorem S_closed_forms_only_on_request {SC : Scalar} {CO : Collaborators SC}
    (coocMat : matrix) (meanFieldRef : bool) (priorLmbda : scal)
    (numSamples : option Z) (independentRef : bool)
    (meanFieldPriorLmbda : option scal) (σ : Registry) :
  let result J c :=
    (analyticEntropy J, JfullFromCluster J c (len coocMat)) in
  let logged evs :=
    mkRegistry (deltaSdict σ) (deltaJdict σ) (evs ++ trace σ) in
  (* without the flag: the numerical solver, whatever the size *)
  (∀ c, c ≠ [] →
     S_ c coocMat false priorLmbda numSamples σ =
     (Ok (result (findJmatrixAnalytic_CoocMat (coocCluster coocMat c) None
                    priorLmbda numSamples) c),
      logged [EvNumeric c; EvS c])) ∧
  (* with the flag, size 1 *)
  (∀ a p, np_index2 coocMat a a = Ok p →
     S_ [a] coocMat true priorLmbda numSamples σ =
     (Ok (result [[ s_neg (s_log (s_div p (s_sub s_one p))) ]] [a]),
      logged [EvS [a]])) ∧
  (* with the flag, size 2 *)
  (∀ a b pi pj pij,
     np_index2 coocMat (Z.min a b) (Z.min a b) = Ok pi →
     np_index2 coocMat (Z.max a b) (Z.max a b) = Ok pj →
     np_index2 coocMat (Z.min a b) (Z.max a b) = Ok pij →
     let rest := s_add (s_sub (s_sub s_one pi) pj) pij in
     let Jii := s_neg (s_log (s_div (s_sub pi pij) rest)) in
     let Jjj := s_neg (s_log (s_div (s_sub pj pij) rest)) in
     let Jij :=
       s_sub (s_add (s_add (s_neg (s_log pij)) (s_log (s_sub pi pij)))
                    (s_log (s_sub pj pij)))
             (s_log rest) in
     S_ [a; b] coocMat true priorLmbda numSamples σ =
     (Ok (result [[ Jii; s_mul s_half Jij ]; [ s_mul s_half Jij; Jjj ]] [a; b]),
      logged [EvS [a; b]])) ∧
  (* [deltaS] calls [S] without the flag *)
  (∀ c r σ',
     registry_ok coocMat meanFieldRef priorLmbda numSamples independentRef
       (default priorLmbda meanFieldPriorLmbda) σ →
     deltaSdict σ !! clusterID c = None →
     deltaS c coocMat meanFieldRef priorLmbda numSamples independentRef
       meanFieldPriorLmbda σ = (Ok r, σ') →
     c ∈ numeric_calls (trace σ')).
Proof.
  intros result logged. split_and!.
  - intros c Hne. by rewrite S_numeric.
  - intros a p Hp. unfold S_, bind, emit, lift, ret. simpl. by rewrite Hp.
  - intros a b pi pj pij Hpi Hpj Hpij. unfold S_, bind, emit, lift, ret. simpl.
    by rewrite Hpi, Hpj, Hpij.
  - intros c r σ' Hok Hmiss Hrun.
    rewrite (deltaS_unfold _ _ _ _ _ (default priorLmbda meanFieldPriorLmbda))
      in Hrun by done.
    apply deltaS_here_post in Hrun
      as (_ & _ & _ & _ & _ & _ & _ & _ & Hnum & _); [|done].
    apply list_elem_of_omap. exists (EvNumeric c). split; [|done].
    eapply elem_of_suffix; [|by apply Hnum]. left.
Qed.

(** C6, an instance of its last part: the call of [deltaS] on a single
    index goes to the numerical solver. *)
Lemma S_closed_forms_only_on_request_witness :
  let coocMat : matrix := [[3; 2; 2]; [2; 3; 2]; [2; 2; 3]] in
  [0] ∈ numeric_calls
          (trace (deltaS [0] coocMat false 0 None true None empty_registry).2).
Proof.
  intros coocMat.
  apply (proj2 (proj2 (proj2 (S_closed_forms_only_on_request
           (SC:=Z_scalar) (CO:=stand_ins) coocMat false 0 None true None
           empty_registry))) [0]
           (12, [[3; 0; 0]; [0; 0; 0]; [0; 0; 0]])).
  - apply registry_ok_empty.
  - reflexivity.
  - vm_compute. reflexivity.
Defined.

(** C6 as stated fails: for a cluster of size 1 the call that [deltaS]
    makes goes to the numerical solver and returns its result, not the
    closed form that the same call with [useAnalyticResults] returns. *)
Lemma S_singleton_not_closed_form :
  let coocMat : matrix := [[3; 2; 2]; [2; 3; 2]; [2; 2; 3]] in
  S_ [0] coocMat false 0 None empty_registry =
    (Ok (9, [[3; 0; 0]; [0; 0; 0]; [0; 0; 0]]),
     mkRegistry ∅ ∅ [EvNumeric [0]; EvS [0]]) ∧
  S_ [0] coocMat true 0 None empty_registry =
    (Ok (0, [[0; 0; 0]; [0; 0; 0]; [0; 0; 0]]), mkRegistry ∅ ∅ [EvS [0]]) ∧
  numeric_calls
    (trace (deltaS [0] coocMat false 0 None true None empty_registry).2)
  = [[0]].
Proof. vm_compute. done. Qed.

(** C5 (as amended).  Subset enumeration: on a duplicate-free list [S]
    and [0 < k <= |S|], [subsets] returns [C(|S|,k)] lists that are
    pairwise distinct as index sets, each a [k]-element subset of [S],
    and every [k]-element subset of [S] is among them; for [k > |S|],
    and for [k <= 0] unless [k = |S|], it returns the empty list; for
    [k = |S|] it returns [S] itself as the only subset; for [k = 1] it
    returns each element as a singleton; on a list with a duplicate it
    raises. *)
Theorem subsets_enumeration (S : list Z) (k : Z) :
  (NoDup S → 0 < k ≤ len S →
   ∃ L, subsets S k false = Ok L ∧
        length L = binom (length S) (Z.to_nat k) ∧
        (∀ i j x y, L !! i = Some x → L !! j = Some y → i ≠ j →
                    ¬ same_index_set x y) ∧
        (∀ x, x ∈ L → is_subset_of_size S (Z.to_nat k) x) ∧
        (∀ T, is_subset_of_size S (Z.to_nat k) T →
              ∃ x, x ∈ L ∧ same_index_set x T)) ∧
  (NoDup S → k > len S ∨ (k ≤ 0 ∧ k ≠ len S) → subsets S k false = Ok []) ∧
  (NoDup S → k = len S → subsets S k false = Ok [S]) ∧
  (NoDup S → k = 1 → subsets S k false = Ok (map (λ s, [s]) S)) ∧
  (¬ NoDup S → subsets S k false = Raise Exception).
Proof.
  split_and!.
  - intros HS [Hpos Hle].
    destruct (subsets_enumerates S HS k Hpos) as (L & HL & Hlen & Hall & Hnd & Hcov).
    rewrite Forall_forall in Hall.
    exists L. split_and!; [done|done| |done|].
    + apply NoDup_ids_distinct; [|done].
      apply Forall_forall. intros x Hx. by destruct (Hall x Hx).
    + intros T HT.
      assert (clusterID T ∈ clusterID <$> L) as (x & Hid & Hx)%list_elem_of_fmap
        by (by apply Hcov).
      exists x. split; [done|].
      apply same_index_set_perm; [by destruct (Hall x Hx)|by destruct HT|].
      by apply clusterID_perm.
  - intros HS Hk. rewrite subsets_unfold, bool_decide_eq_true_2 by done. simpl.
    assert (0 ≤ len S) by (unfold len; lia).
    destruct (Z.eqb_spec k (len S)); [lia|].
    rewrite Z.gtb_ltb. destruct (Z.ltb_spec (len S) k); [done|].
    destruct (Z.leb_spec k 0); [done|lia].
  - intros HS ->. rewrite subsets_unfold, bool_decide_eq_true_2 by done. simpl.
    by rewrite Z.eqb_refl.
  - intros HS ->. rewrite subsets_unfold, bool_decide_eq_true_2 by done.
    cbn [negb].
    destruct (Z.eqb_spec 1 (len S)) as [Heq|Hne].
    { destruct S as [|a [|b S]]; unfold len in Heq; simpl in Heq; [lia|done|lia]. }
    rewrite Z.gtb_ltb. destruct (Z.ltb_spec (len S) 1) as [Hlt|Hge]; [|done].
    destruct S; [done|]. unfold len in Hlt. simpl in Hlt. lia.
  - intros HS. rewrite subsets_unfold, bool_decide_eq_false_2 by done. done.
Qed.

Lemma subsets_enumeration_witness :
  ∃ L, subsets [3; 1; 2; 0] 2 false = Ok L ∧ length L = 6%nat.
Proof.
  destruct (proj1 (subsets_enumeration [3; 1; 2; 0] 2)) as (L & HL & Hlen & _).
  - compute_done.
  - unfold len. simpl. lia.
  - exists L. split; [exact HL | exact Hlen].
Defined.

(** C5 as stated fails at the empty list and size 0: the size equals
    the length, so the list itself -- the one subset of size 0 -- is
    returned, not the empty list. *)
Lemma subsets_empty_zero :
  NoDup (@nil Z) ∧ 0 ≤ 0 ∧
  subsets [] 0 false = Ok [[]] ∧ subsets [] 0 false ≠ Ok [].
Proof. split_and!; [constructor|done|done|done]. Qed.

(** ** The growth loop of [solve] *)

Lemma elem_of_index_pairs (n i j : nat) :
  (i, j) ∈ index_pairs n ↔ (i < j < n)%nat.
Proof.
  unfold index_pairs. rewrite list_elem_of_bind. split.
  - intros (i' & Hin & Hi%elem_of_seq).
    apply list_elem_of_fmap in Hin as (j' & [= -> ->] & Hj%elem_of_seq). lia.
  - intros [Hij Hjn]. exists i. split.
    + apply list_elem_of_fmap. exists j. split; [done|]. apply elem_of_seq. lia.
    + apply elem_of_seq. lia.
Qed.

Lemma elem_of_candidates (size : Z) (current : list (list Z)) (u : list Z) :
  u ∈ candidates size current ↔
  ∃ i j gamma1 gamma2,
    (i < j)%nat ∧ current !! i = Some gamma1 ∧ current !! j = Some gamma2 ∧
    qualifies size gamma1 gamma2 = true ∧ u = merged gamma1 gamma2.
Proof.
  unfold candidates. rewrite list_elem_of_bind. split.
  - intros ([i j] & Hu & [Hij Hj]%elem_of_index_pairs).
    unfold candidate in Hu. simpl in Hu.
    destruct (current !! i) as [g1|] eqn:H1; [|by apply elem_of_nil in Hu].
    destruct (current !! j) as [g2|] eqn:H2; [|by apply elem_of_nil in Hu].
    destruct (qualifies size g1 g2) eqn:Hq; [|by apply elem_of_nil in Hu].
    apply list_elem_of_singleton in Hu as ->. by exists i, j, g1, g2.
  - intros (i & j & g1 & g2 & Hij & H1 & H2 & Hq & ->).
    exists (i, j). split.
    + unfold candidate. simpl. rewrite H1, H2, Hq. left.
    + apply elem_of_index_pairs. split; [done|]. by eapply lookup_lt_Some.
Qed.

Lemma merged_identity (g1 g2 : list Z) : clusterID (merged g1 g2) = merged g1 g2.
Proof. apply np_sort_idemp. Qed.

Section Growth.
Context {SC : Scalar} {CO : Collaborators SC}.
Variables (coocMat : matrix) (T : scal) (meanFieldRef : bool)
  (priorLmbda : scal) (numSamples : option Z) (independentRef : bool)
  (meanFieldPriorLmbda : scal).

Local Abbreviation ok := (registry_ok coocMat meanFieldRef priorLmbda
  numSamples independentRef meanFieldPriorLmbda).
Local Abbreviation pair_body := (λ size current,
  grow_pair coocMat T size current meanFieldRef priorLmbda numSamples
    independentRef meanFieldPriorLmbda).
Local Abbreviation generation := (λ size current,
  grow_generation coocMat T size current meanFieldRef priorLmbda numSamples
    independentRef meanFieldPriorLmbda).
Local Abbreviation loop := (λ fuel size clusters,
  grow_loop fuel coocMat T size clusters meanFieldRef priorLmbda numSamples
    independentRef meanFieldPriorLmbda).

Local Abbreviation passes := (passes T).

Lemma grow_pair_post size current next ij σ next' σ' :
  ok σ → ij ∈ index_pairs (length current) →
  pair_body size current next ij σ = (Ok next', σ') →
  ok σ' ∧ deltaSdict σ ⊆ deltaSdict σ' ∧
  evaluated (trace σ') =
    reverse (candidate size current ij) ++ evaluated (trace σ) ∧
  Forall (λ u, is_Some (deltaSdict σ' !! u)) (candidate size current ij) ∧
  next' = next ++ filter (λ u, passes σ' u = true ∧ u ∉ next)
                    (candidate size current ij).
Proof.
  intros Hok Hij Hrun. destruct ij as [i j].
  apply elem_of_index_pairs in Hij as [Hlt Hj].
  destruct (lookup_lt_is_Some_2 current i) as [g1 H1]; [lia|].
  destruct (lookup_lt_is_Some_2 current j) as [g2 H2]; [lia|].
  unfold grow_pair, candidate, list_get in *. simpl in *.
  rewrite H1, H2 in *.
  apply bind_ok in Hrun as (? & ? & [[= <-] ->]%lift_ok & Hrun).
  apply bind_ok in Hrun as (? & ? & [[= <-] ->]%lift_ok & Hrun).
  fold (qualifies size g1 g2) in Hrun. fold (merged g1 g2) in Hrun.
  destruct (qualifies size g1 g2).
  - apply bind_ok in Hrun as ([] & σ1 & [= <-] & Hrun).
    apply bind_ok in Hrun as ([dS dJ] & σ2 & Hcall & Hrun).
    rewrite (deltaS_unfold _ _ _ _ _ meanFieldPriorLmbda) in Hcall by done.
    apply deltaS_here_post in Hcall
      as (Hok2 & Hsub2 & Hev2 & _ & HS & _ & _ & _ & _ & _ & _);
      [|by apply registry_ok_emit].
    rewrite merged_identity in HS. simpl in *.
    assert (σ' = σ2 ∧ next' = next ++ filter (λ u, passes σ2 u = true ∧ u ∉ next)
                                        [merged g1 g2]) as [-> ->].
    { rewrite filter_cons, filter_nil. unfold passes_def, memo. rewrite HS. simpl.
      destruct (s_gtb (s_abs dS) T); simpl in Hrun.
      - destruct (decide (merged g1 g2 ∈ next)) as [Hin|Hnin].
        + rewrite bool_decide_eq_true_2 in Hrun by done.
          injection Hrun as <- <-.
          rewrite decide_False by tauto. by rewrite app_nil_r.
        + rewrite bool_decide_eq_false_2 in Hrun by done.
          injection Hrun as <- <-. by rewrite decide_True.
      - injection Hrun as <- <-.
        rewrite decide_False by (by intros [? _]). by rewrite app_nil_r. }
    split_and!; [done|done| |by repeat constructor|done].
    rewrite Hev2. done.
  - injection Hrun as <- <-. rewrite filter_nil, app_nil_r.
    split_and!; [done|done|done|constructor|done].
Qed.

Lemma passes_mono (σ σ' : Registry) (u : list Z) :
  deltaSdict σ ⊆ deltaSdict σ' → is_Some (deltaSdict σ !! u) →
  passes σ' u = passes σ u.
Proof. intros Hsub Hu. unfold passes_def. by rewrite (memo_mono σ σ'). Qed.

(** One transition: which candidates were evaluated, and which of them
    make up the next generation. *)
Lemma grow_generation_post size current σ next σ' :
  ok σ → generation size current σ = (Ok next, σ') →
  ok σ' ∧ deltaSdict σ ⊆ deltaSdict σ' ∧
  evaluated (trace σ') =
    reverse (candidates size current) ++ evaluated (trace σ) ∧
  Forall (λ u, is_Some (deltaSdict σ' !! u)) (candidates size current) ∧
  NoDup next ∧
  ∀ u, u ∈ next ↔ u ∈ candidates size current ∧ passes σ' u = true.
Proof.
  intros Hok. unfold grow_generation, candidates.
  apply foldM_ok_ind with
    (I := λ done nxt σi,
       ok σi ∧ deltaSdict σ ⊆ deltaSdict σi ∧
       evaluated (trace σi) =
         reverse (done ≫= candidate size current) ++ evaluated (trace σ) ∧
       Forall (λ u, is_Some (deltaSdict σi !! u))
         (done ≫= candidate size current) ∧
       NoDup nxt ∧
       ∀ u, u ∈ nxt ↔ u ∈ done ≫= candidate size current ∧ passes σi u = true).
  - split_and!; [done|done|done|constructor|constructor|].
    intros u. simpl. rewrite elem_of_nil. tauto.
  - intros done ij nxt σ1 nxt' σ2 (Hok1 & Hsub1 & Hev1 & Hin1 & Hnd1 & Hmem1) Hij Hbody.
    apply grow_pair_post in Hbody as (Hok2 & Hsub2 & Hev2 & Hin2 & ->); [|done..].
    assert (Hkeep : ∀ u, u ∈ done ≫= candidate size current →
              passes σ2 u = passes σ1 u).
    { intros u Hu. apply passes_mono; [done|].
      rewrite Forall_forall in Hin1. by apply Hin1. }
    rewrite bind_app. simpl. rewrite app_nil_r.
    split_and!.
    + done.
    + by etrans.
    + rewrite Hev2, Hev1, reverse_app. by rewrite app_assoc.
    + apply Forall_app. split; [|done].
      eapply Forall_impl; [exact Hin1|]. simpl. intros y [v Hv].
      exists v. by eapply lookup_weaken.
    + apply NoDup_app. split_and!; [done| |].
      * intros u Hu [[_ Hnot] _]%list_elem_of_filter. done.
      * apply NoDup_filter. unfold candidate.
        repeat case_match; try constructor; [by intros []%elem_of_nil|constructor].
    + intros u. rewrite !elem_of_app, list_elem_of_filter. split.
      * intros [[Hu Hp]%Hmem1|[[Hp _] Hu]]; [|by split; [right|]].
        split; [by left|]. by rewrite Hkeep.
      * intros [[Hu|Hu] Hp].
        -- left. apply Hmem1. split; [done|]. by rewrite <-Hkeep.
        -- destruct (decide (u ∈ nxt)) as [Hin|Hnin]; [by left|by right].
Qed.

(** The whole loop.  The generations it leaves in [clusters] are
    described with the final registry, since a memo entry never
    changes once it is written. *)
Lemma grow_loop_post (fuel : nat) :
  ∀ size clusters σ m clusters' σ',
  ok σ → loop fuel size clusters σ = (Ok (m, clusters'), σ') →
  ok σ' ∧ deltaSdict σ ⊆ deltaSdict σ' ∧ size ≤ m ∧
  clusters' !! m = Some [] ∧
  (∀ k, k ≤ size → clusters' !! k = clusters !! k) ∧
  (∀ k, m < k → clusters' !! k = clusters !! k) ∧
  (∀ k, size ≤ k < m →
     ∃ cur next, clusters' !! k = Some cur ∧
                 clusters' !! (k + 1) = Some next ∧
                 cur ≠ [] ∧ NoDup next ∧
                 Forall (λ u, is_Some (deltaSdict σ' !! u))
                   (candidates k cur) ∧
                 ∀ u, u ∈ next ↔ u ∈ candidates k cur ∧ passes σ' u = true) ∧
  evaluated (trace σ') =
    reverse (seqZ size (m - size) ≫=
               λ k, candidates k (default [] (clusters' !! k)))
    ++ evaluated (trace σ).
Proof.
  induction fuel as [|fuel IH]; intros size clusters σ m clusters' σ' Hok Hrun;
    [done|].
  simpl in Hrun.
  apply bind_ok in Hrun as (current & ? & [Hcur ->]%lift_ok & Hrun).
  unfold dict_get in Hcur.
  destruct (clusters !! size) as [cur|] eqn:Hsize; [|done].
  injection Hcur as ->.
  destruct (len current >? 0) eqn:Hlen.
  - apply bind_ok in Hrun as (next & σ1 & Hgen & Hrun).
    apply grow_generation_post in Hgen
      as (Hok1 & Hsub1 & Hev1 & Hin1 & Hnd1 & Hmem1); [|done].
    apply IH in Hrun
      as (Hok' & Hsub' & Hle & Hlast & Hlow & Hhigh & Hmid & Hev'); [|done].
    assert (clusters' !! size = Some current) as Hk.
    { rewrite Hlow by lia. rewrite lookup_insert_ne by lia. done. }
    assert (clusters' !! (size + 1) = Some next) as Hk1.
    { rewrite Hlow by lia. by rewrite lookup_insert_eq. }
    split_and!.
    + done.
    + by etrans.
    + lia.
    + done.
    + intros k Hks. rewrite Hlow by lia. by rewrite lookup_insert_ne by lia.
    + intros k Hkm. rewrite Hhigh by lia. by rewrite lookup_insert_ne by lia.
    + intros k [Hks Hkm]. destruct (decide (k = size)) as [->|Hne].
      * exists current, next. split_and!; [done|done| |done| |].
        -- intros ->. done.
        -- eapply Forall_impl; [exact Hin1|]. simpl. intros y [v Hv].
           exists v. by eapply lookup_weaken.
        -- intros u. rewrite Hmem1. split; intros [Hu Hp]; (split; [done|]).
           ++ rewrite (passes_mono σ1 σ'); [done|done|].
              rewrite Forall_forall in Hin1. by apply Hin1.
           ++ rewrite <-(passes_mono σ1 σ'); [done|done|].
              rewrite Forall_forall in Hin1. by apply Hin1.
      * apply Hmid. lia.
    + rewrite Hev', Hev1.
      replace (m - size) with (Z.succ (m - (size + 1))) by lia.
      rewrite (seqZ_cons size) by lia. rewrite bind_cons, reverse_app, Hk. simpl.
      replace (Z.pred (Z.succ (m - (size + 1)))) with (m - (size + 1)) by lia.
      replace (Z.succ size) with (size + 1) by lia.
      by rewrite app_assoc.
  - injection Hrun as <- <- <-.
    assert (current = []) as ->.
    { destruct current; [done|]. unfold len in Hlen. simpl in Hlen. done. }
    split_and!; [done|done|lia|done|done|done| |].
    + intros k ?. lia.
    + by rewrite Z.sub_diag.
Qed.
End Growth.

(** ** Assembly and the structure of [solve] *)

Section SolveStructure.
Context {SC : Scalar} {CO : Collaborators SC}.

Lemma foldM_reads_only {A B} (body : B → A → M B) (l : list A) :
  (∀ acc x σ, (body acc x σ).2 = σ) →
  ∀ acc σ, (foldM body acc l σ).2 = σ.
Proof.
  intros Hbody. induction l as [|x l IH]; intros acc σ; simpl; [done|].
  unfold bind. specialize (Hbody acc x σ).
  destruct (body acc x σ) as [[acc'|e] σ1]; simpl in *; subst; [apply IH|done].
Qed.

(** The assembly only reads the registry. *)
Lemma assemble_reads_only (clusters : gmap Z (list (list Z)))
    (start : scal * matrix) (σ : Registry) :
  (assemble clusters start σ).2 = σ.
Proof.
  unfold assemble. apply foldM_reads_only. intros acc size σ1.
  unfold bind, lift. destruct (dict_get clusters size); [|done].
  apply foldM_reads_only. intros [ent J] c σ2.
  unfold bind, lift, get_registry, ret.
  destruct (dict_get (deltaSdict σ2) (clusterID c)); [|done].
  by destruct (dict_get (deltaJdict σ2) (clusterID c)).
Qed.
End SolveStructure.

(** C4.  Growth rule of the grower, the [while] loop of [solve],
    started as [solve] starts it -- at size 1 on the singletons of the
    index list -- on any co-occurrence matrix.  In a run that returns,
    the generation of size 1 holds the singletons; in every transition
    from size [k] to [k+1] the candidates handed to [deltaS] are exactly
    the sorted unions of the pairs of positions [i < j] of the
    generation of size [k] whose intersection has [k-1] elements, in
    the order of the loops; the generation of size [k+1] holds, without
    repetition, exactly the candidates whose memoized contribution is
    above the threshold in absolute value; and the loop ran while the
    generation was non-empty and halted at the first empty one. *)
Theorem grow_loop_growth_rule {SC : Scalar} {CO : Collaborators SC}
    (coocMat : matrix) (threshold : scal) (cluster : list Z)
    (priorLmbda : scal) (numSamples : option Z)
    (meanFieldRef independentRef : bool) (meanFieldPriorLmbda : scal)
    (fuel : nat) (σ : Registry) (m : Z) (clusters : gmap Z (list (list Z)))
    (σ' : Registry) :
  registry_ok coocMat meanFieldRef priorLmbda numSamples independentRef
    meanFieldPriorLmbda σ →
  grow_loop fuel coocMat threshold 1 {[ 1 := map (λ i, [i]) cluster ]}
    meanFieldRef priorLmbda numSamples independentRef meanFieldPriorLmbda σ
  = (Ok (m, clusters), σ') →
  1 ≤ m ∧
  clusters !! 1 = Some (map (λ i, [i]) cluster) ∧
  clusters !! m = Some [] ∧
  (∀ k, 1 ≤ k < m →
     ∃ cur next, clusters !! k = Some cur ∧ clusters !! (k + 1) = Some next ∧
                 cur ≠ [] ∧ NoDup next ∧
                 ∀ u, u ∈ next ↔
                      u ∈ candidates k cur ∧
                      s_gtb (s_abs (memo σ' u)) threshold = true) ∧
  evaluated (trace σ') =
    reverse (seqZ 1 (m - 1) ≫=
               λ k, candidates k (default [] (clusters !! k)))
    ++ evaluated (trace σ).
Proof.
  intros Hok Hloop.
  apply grow_loop_post in Hloop
    as (_ & _ & Hle & Hlast & Hlow & _ & Hmid & Hev); [|done].
  split_and!; [done| |done| |done].
  - rewrite Hlow by lia. by rewrite lookup_singleton_eq.
  - intros k Hk. destruct (Hmid k Hk) as (cur & next & ? & ? & ? & ? & _ & ?).
    by exists cur, next.
Qed.

Lemma grow_loop_growth_rule_witness :
  let run :=
    grow_loop (SC:=FloatModel.binary64) (CO:=FloatModel.stand_ins) 5
      FloatModel.coocMat4 0x1.3cd35a8587941p+0%float 1
      {[ 1 := [[0]; [1]; [2]; [3]] ]} true 0%float None false 0%float
      empty_registry in
  let clusters : gmap Z (list (list Z)) :=
    {[ 1 := [[0]; [1]; [2]; [3]];
       2 := [[0; 3]; [1; 2]; [1; 3]; [2; 3]];
       3 := [[0; 1; 3]; [0; 2; 3]; [1; 2; 3]];
       4 := [[0; 1; 2; 3]]; 5 := [] ]} in
  clusters !! 5 = Some [] ∧
  ∀ k, 1 ≤ k < 5 →
    ∃ cur next, clusters !! k = Some cur ∧ clusters !! (k + 1) = Some next ∧
                cur ≠ [] ∧ NoDup next ∧
                ∀ u, u ∈ next ↔
                     u ∈ candidates k cur ∧
                     PrimFloat.ltb 0x1.3cd35a8587941p+0%float
                       (PrimFloat.abs
                          (memo (SC:=FloatModel.binary64) run.2 u)) = true.
Proof.
  intros run clusters.
  destruct (grow_loop_growth_rule (SC:=FloatModel.binary64)
              (CO:=FloatModel.stand_ins) FloatModel.coocMat4
              0x1.3cd35a8587941p+0%float [0; 1; 2; 3] 0%float None true false
              0%float 5 empty_registry 5 clusters run.2)
    as (_ & _ & Hlast & Hstep & _).
  - apply registry_ok_empty.
  - vm_compute. reflexivity.
  - split; [exact Hlast | exact Hstep].
Defined.

(** ** The reference-mode checks *)

Section ModeChecks.
Context {SC : Scalar} {CO : Collaborators SC}.

Lemma deltaS_invalid_mode (c : list Z) (coocMat : matrix)
    (meanFieldRef : bool) (priorLmbda : scal) (numSamples : option Z)
    (independentRef : bool) (meanFieldPriorLmbda : option scal) σ :
  (independentRef && meanFieldRef)
    || negb (independentRef || meanFieldRef) = true →
  deltaS c coocMat meanFieldRef priorLmbda numSamples independentRef
    meanFieldPriorLmbda σ = (Raise Exception, σ).
Proof. intros Hmode. unfold deltaS. cbn [deltaS_rec]. by rewrite Hmode. Qed.

(** With neither mode set, the loop over the pairs stops with an
    exception at the first candidate, before [deltaS] computes
    anything. *)
Lemma grow_pairs_without_mode (coocMat : matrix) (T : scal) (size : Z)
    (current : list (list Z)) (priorLmbda : scal) (numSamples : option Z)
    (mfpl : scal) (pairs : list (nat * nat)) :
  (∀ ij, ij ∈ pairs → ij ∈ index_pairs (length current)) →
  ∀ next σ,
    foldM (grow_pair coocMat T size current false priorLmbda numSamples
             false mfpl) next pairs σ =
    match pairs ≫= candidate size current with
    | [] => (Ok next, σ)
    | u :: _ => (Raise Exception, with_event σ (EvEval u))
    end.
Proof.
  induction pairs as [|[i j] pairs IH]; intros Hpairs next σ; [done|].
  assert ((i, j) ∈ index_pairs (length current)) as [Hlt Hj]%elem_of_index_pairs
    by (apply Hpairs; left).
  destruct (lookup_lt_is_Some_2 current i) as [g1 H1]; [lia|].
  destruct (lookup_lt_is_Some_2 current j) as [g2 H2]; [lia|].
  rewrite bind_cons. cbn [foldM].
  unfold bind at 1. unfold grow_pair at 1. unfold candidate at 1.
  unfold bind at 1. unfold bind at 1. unfold lift, list_get.
  cbn [fst snd]. rewrite H1, H2.
  fold (qualifies size g1 g2). fold (merged g1 g2).
  destruct (qualifies size g1 g2).
  - unfold bind, emit. by rewrite deltaS_invalid_mode.
  - unfold ret at 1. cbn [app]. apply IH.
    intros ij Hij. apply Hpairs. by right.
Qed.

Lemma singletons_qualify (a b : Z) : a ≠ b → qualifies 1 [a] [b] = true.
Proof.
  intros Hab. unfold qualifies, np_intersect1d.
  rewrite filter_cons, decide_False, filter_nil; [done|].
  by intros ->%list_elem_of_singleton.
Qed.
End ModeChecks.

(** C3.  Reference-mode exclusivity: a call of [solve] with both
    [independentRef] and [meanFieldRef] set, or with neither, raises
    before any entropy computation, whatever the data and the
    threshold; the registry -- the dictionaries and the trace of the
    entropy computations -- is left as it was.  On an instance as
    [ClusterExpansion] constructs it the error is the [AttributeError]
    of the first statement of [solve].  The two checks that the source
    has for the reference modes come after that statement: on an
    instance that was given a [coocurrence_matrix], both modes set
    raise at once in [solve], and neither set raises in the first call
    of [deltaS], which takes place as soon as the index list holds two
    different indices. *)
Theorem solve_reference_mode_check {SC : Scalar} {CO : Collaborators SC}
    (X : matrix) (threshold : scal) (cluster : option (list Z))
    (priorLmbda : scal) (numSamples : option Z)
    (meanFieldRef independentRef : bool)
    (meanFieldPriorLmbda : option scal) (return_all : bool) (σ : Registry) :
  (independentRef = meanFieldRef →
   ∃ e, solve constructed X threshold cluster priorLmbda numSamples
          meanFieldRef independentRef meanFieldPriorLmbda return_all σ
        = (Raise e, σ)) ∧
  (∀ f, solve {| coocurrence_matrix_attr := Some f |} X threshold cluster
          priorLmbda numSamples true true meanFieldPriorLmbda return_all σ
        = (Raise Exception, σ)) ∧
  (∀ f,
     let coocMat := f (map (map (λ x, s_div (s_add x s_one) s_two)) X) in
     let cl := default (py_range (len coocMat)) cluster in
     (∃ i j a b, (i < j)%nat ∧ cl !! i = Some a ∧ cl !! j = Some b ∧ a ≠ b) →
     ∃ σ', solve {| coocurrence_matrix_attr := Some f |} X threshold cluster
             priorLmbda numSamples false false meanFieldPriorLmbda
             return_all σ = (Raise Exception, σ') ∧
           deltaSdict σ' = deltaSdict σ ∧ deltaJdict σ' = deltaJdict σ ∧
           entropy_calls (trace σ') = entropy_calls (trace σ) ∧
           numeric_calls (trace σ') = numeric_calls (trace σ)).
Proof.
  split_and!.
  - intros _. by exists AttributeError.
  - done.
  - intros f coocMat cl (i & j & a & b & Hij & Hi & Hj & Hab).
    assert (merged [a] [b] ∈ candidates 1 (map (λ i, [i]) cl)) as Hcand.
    { apply elem_of_candidates. exists i, j, [a], [b].
      split_and!; [done| | |by apply singletons_qualify|done].
      - by rewrite list_lookup_fmap, Hi.
      - by rewrite list_lookup_fmap, Hj. }
    unfold candidates in Hcand.
    destruct (index_pairs (length (map (λ i, [i]) cl)) ≫=
                candidate 1 (map (λ i, [i]) cl)) as [|u rest] eqn:Hc;
      [by apply elem_of_nil in Hcand|].
    exists (with_event σ (EvEval u)). split; [|done].
    unfold solve. unfold bind at 1. cbn [lift getattr_coocurrence_matrix
      coocurrence_matrix_attr andb].
    fold coocMat. fold cl. cbn [grow_loop].
    unfold bind at 1. unfold bind at 1. unfold lift, dict_get.
    rewrite lookup_singleton_eq.
    assert ((len (map (λ i, [i]) cl) >? 0) = true) as ->.
    { destruct cl; [by rewrite lookup_nil in Hi|done]. }
    unfold bind at 1. unfold grow_generation.
    rewrite grow_pairs_without_mode by done. by rewrite Hc.
Qed.

(** An instance of the last part of C3: three variables, neither
    reference mode, an instance with a co-occurrence routine. *)
Lemma solve_reference_mode_check_witness :
  ∃ σ', solve {| coocurrence_matrix_attr := Some counts |} samples3 0 None 0
          None false false None true empty_registry
        = (Raise Exception, σ') ∧
        deltaSdict σ' = ∅ ∧ deltaJdict σ' = ∅ ∧
        entropy_calls (trace σ') = [] ∧ numeric_calls (trace σ') = [].
Proof.
  apply (proj2 (proj2 (solve_reference_mode_check (SC:=Z_scalar)
                  (CO:=stand_ins) samples3 0 None 0 None false false None
                  true empty_registry)) counts).
  exists 0%nat, 1%nat, 0, 1. split_and!; [lia|reflexivity|reflexivity|lia].
Defined.

(** ** The clusters of a generation *)

Lemma filter_split_length {A} (P : A → Prop) `{∀ x, Decision (P x)} (l : list A) :
  (length (filter P l) + length (filter (λ x, ¬ P x) l) = length l)%nat.
Proof.
  induction l as [|x l IH]; [done|].
  rewrite !filter_cons. destruct (decide (P x)).
  - rewrite decide_False by tauto. simpl. lia.
  - rewrite decide_True by done. simpl. lia.
Qed.

Lemma np_unique_NoDup (l : list Z) : NoDup (np_unique l).
Proof. apply np_sort_NoDup, NoDup_remove_dups. Qed.

Lemma np_unique_elem (l : list Z) (a : Z) : a ∈ np_unique l ↔ a ∈ l.
Proof. unfold np_unique. by rewrite np_sort_elem, elem_of_remove_dups. Qed.

Lemma np_unique_length_NoDup (l : list Z) :
  NoDup l → length (np_unique l) = length l.
Proof.
  intros Hl. unfold np_unique. rewrite np_sort_length.
  by apply remove_dups_length_eq.
Qed.

Lemma merged_NoDup (g1 g2 : list Z) : NoDup (merged g1 g2).
Proof. apply np_sort_NoDup, np_unique_NoDup. Qed.

Lemma merged_elem (g1 g2 : list Z) (a : Z) :
  a ∈ merged g1 g2 ↔ a ∈ g1 ∨ a ∈ g2.
Proof.
  unfold merged, np_union1d. by rewrite np_sort_elem, np_unique_elem, elem_of_app.
Qed.

Lemma merged_comm (g1 g2 : list Z) : merged g1 g2 = merged g2 g1.
Proof.
  unfold merged. f_equal. unfold np_union1d, np_unique.
  apply np_sort_of_perm, NoDup_Permutation; try apply NoDup_remove_dups.
  intros a. rewrite !elem_of_remove_dups, !elem_of_app. tauto.
Qed.

Lemma np_intersect1d_comm (g1 g2 : list Z) :
  np_intersect1d g1 g2 = np_intersect1d g2 g1.
Proof.
  unfold np_intersect1d, np_unique.
  apply np_sort_of_perm, NoDup_Permutation; try apply NoDup_remove_dups.
  intros a. rewrite !elem_of_remove_dups, !list_elem_of_filter. tauto.
Qed.

Lemma qualifies_comm (size : Z) (g1 g2 : list Z) :
  qualifies size g1 g2 = qualifies size g2 g1.
Proof. unfold qualifies. by rewrite np_intersect1d_comm. Qed.

Lemma merged_nonempty (g1 g2 : list Z) : g1 ≠ [] → merged g1 g2 ≠ [].
Proof.
  destruct g1 as [|a g1]; [done|]. intros _ Hnil.
  assert (a ∈ merged (a :: g1) g2) as Hin by (apply merged_elem; left; left).
  rewrite Hnil in Hin. by apply elem_of_nil in Hin.
Qed.

(** Two duplicate-free lists of [k] indices whose intersection has
    [k-1] elements have a union of [k+1] elements. *)
Lemma merged_length (k : nat) (g1 g2 : list Z) :
  NoDup g1 → NoDup g2 → length g1 = k → length g2 = k →
  qualifies (Z.of_nat k) g1 g2 = true →
  length (merged g1 g2) = Datatypes.S k.
Proof.
  intros H1 H2 Hl1 Hl2 Hq.
  unfold qualifies, np_intersect1d in Hq. apply Z.eqb_eq in Hq.
  unfold len in Hq. rewrite np_unique_length_NoDup in Hq by (by apply NoDup_filter).
  assert (filter (λ x, x ∈ g1) g2 ≡ₚ filter (λ x, x ∈ g2) g1) as Hsym.
  { apply NoDup_Permutation; try by apply NoDup_filter.
    intros a. rewrite !list_elem_of_filter. tauto. }
  pose proof (filter_split_length (λ x, x ∈ g1) g2) as Hsplit.
  rewrite Hsym in Hsplit.
  unfold merged, np_union1d, np_unique. rewrite !np_sort_length.
  assert (remove_dups (g1 ++ g2) ≡ₚ g1 ++ filter (λ x, x ∉ g1) g2) as ->.
  { apply NoDup_Permutation; [apply NoDup_remove_dups| |].
    - apply NoDup_app. split_and!; [done| |by apply NoDup_filter].
      intros a Ha [Hna _]%list_elem_of_filter. done.
    - intros a. rewrite elem_of_remove_dups, !elem_of_app, list_elem_of_filter.
      destruct (decide (a ∈ g1)); tauto. }
  rewrite length_app. lia.
Qed.

Lemma merged_subset_of_size (cl : list Z) (k : nat) (g1 g2 : list Z) :
  is_subset_of_size cl k g1 → is_subset_of_size cl k g2 →
  qualifies (Z.of_nat k) g1 g2 = true →
  is_subset_of_size cl (Datatypes.S k) (merged g1 g2).
Proof.
  intros (H1 & Hl1 & Hi1) (H2 & Hl2 & Hi2) Hq. split_and!.
  - apply merged_NoDup.
  - by apply merged_length.
  - intros a [Ha|Ha]%merged_elem; [by apply Hi1 | by apply Hi2].
Qed.

Lemma candidates_subset_of_size (cl : list Z) (k : nat) (cur : list (list Z)) :
  Forall (is_subset_of_size cl k) cur →
  Forall (is_subset_of_size cl (Datatypes.S k)) (candidates (Z.of_nat k) cur).
Proof.
  intros Hcur. rewrite Forall_forall in Hcur |- *.
  intros u (i & j & g1 & g2 & _ & H1 & H2 & Hq & ->)%elem_of_candidates.
  apply merged_subset_of_size; [| |done].
  - apply Hcur. by eapply list_elem_of_lookup_2.
  - apply Hcur. by eapply list_elem_of_lookup_2.
Qed.

Lemma singletons_subset_of_size (cl : list Z) :
  Forall (is_subset_of_size cl 1) (map (λ i, [i]) cl).
Proof.
  apply Forall_forall. intros x [a [-> Ha]]%list_elem_of_fmap.
  split_and!; [apply NoDup_singleton|done|].
  by intros b ->%list_elem_of_singleton.
Qed.

(** A non-empty generation of size [k] shows that [k] is at most the
    number of indices. *)
Lemma generation_size_bound (cl : list Z) (k : nat) (cur : list (list Z)) :
  Forall (is_subset_of_size cl k) cur → cur ≠ [] → (k ≤ length cl)%nat.
Proof.
  intros Hcur Hne. destruct cur as [|c cur]; [done|].
  apply Forall_cons in Hcur as [Hc _]. by eapply subset_of_size_length.
Qed.

Lemma filter_all {A} (P : A → Prop) `{∀ x, Decision (P x)} (l : list A) :
  (∀ x, x ∈ l → P x) → filter P l = l.
Proof.
  induction l as [|x l IH]; intros Hall; [done|].
  rewrite filter_cons, decide_True by (apply Hall; left).
  f_equal. apply IH. intros y Hy. apply Hall. by right.
Qed.

(** A pair that qualifies consists of two different clusters. *)
Lemma qualifies_distinct (cl : list Z) (k : nat) (g : list Z) :
  is_subset_of_size cl k g → qualifies (Z.of_nat k) g g = false.
Proof.
  intros (Hg & Hlen & _). unfold qualifies, np_intersect1d.
  apply Z.eqb_neq. unfold len.
  rewrite filter_all by done.
  rewrite np_unique_length_NoDup by done. lia.
Qed.

(** Candidates only depend on the generation as a set of clusters. *)
Lemma candidates_mono (cl : list Z) (k : nat) (cur cur' : list (list Z)) (u : list Z) :
  Forall (is_subset_of_size cl k) cur → cur ⊆ cur' →
  u ∈ candidates (Z.of_nat k) cur → u ∈ candidates (Z.of_nat k) cur'.
Proof.
  intros Hcur Hsub (i & j & g1 & g2 & Hij & H1 & H2 & Hq & ->)%elem_of_candidates.
  assert (g1 ∈ cur') as [i' Hi']%list_elem_of_lookup
    by (by eapply Hsub, list_elem_of_lookup_2).
  assert (g2 ∈ cur') as [j' Hj']%list_elem_of_lookup
    by (by eapply Hsub, list_elem_of_lookup_2).
  assert (i' ≠ j') as Hne.
  { intros ->. assert (g1 = g2) as -> by congruence.
    rewrite Forall_forall in Hcur.
    rewrite (qualifies_distinct cl k g2) in Hq; [done|].
    apply Hcur. by eapply list_elem_of_lookup_2. }
  apply elem_of_candidates.
  destruct (decide (i' < j')%nat).
  - by exists i', j', g1, g2.
  - exists j', i', g2, g1. split_and!; [lia|done|done| |apply merged_comm].
    by rewrite qualifies_comm.
Qed.

(** ** Runs of [solve] *)

Section Runs.
Context {SC : Scalar} {CO : Collaborators SC}.
Variables (coocMat : matrix) (cl : list Z) (priorLmbda : scal)
  (numSamples : option Z) (meanFieldRef independentRef : bool)
  (mfpl : scal).

Local Abbreviation ok := (registry_ok coocMat meanFieldRef priorLmbda
  numSamples independentRef mfpl).
Local Abbreviation run_facts := (run_facts coocMat cl priorLmbda numSamples
  meanFieldRef independentRef mfpl).

Lemma loop_run_facts (T : scal) σ m clusters σ' :
  ok σ →
  grow_loop (Datatypes.S (length cl)) coocMat T 1
    {[ 1 := map (λ i, [i]) cl ]} meanFieldRef priorLmbda numSamples
    independentRef mfpl σ = (Ok (m, clusters), σ') →
  run_facts T σ clusters σ' m.
Proof.
  intros Hok Hloop.
  apply grow_loop_post in Hloop
    as (Hok' & Hsub & Hle & Hlast & Hlow & Hhigh & Hmid & _); [|done].
  split; try done.
  - rewrite Hlow by lia. by rewrite lookup_singleton_eq.
  - intros k [Hk|Hk].
    + rewrite Hlow by lia. rewrite lookup_singleton_ne by lia. done.
    + rewrite Hhigh by lia. rewrite lookup_singleton_ne by lia. done.
Qed.

(** The generation of size [k] holds lists of [k] distinct indices of
    [cluster]. *)
Lemma run_generations (T : scal) σ clusters σ' m :
  run_facts T σ clusters σ' m →
  ∀ n : nat, 1 + Z.of_nat n ≤ m →
    ∃ g, clusters !! (1 + Z.of_nat n) = Some g ∧
         Forall (is_subset_of_size cl (Datatypes.S n)) g.
Proof.
  intros Hrun. induction n as [|n IH]; intros Hn.
  - exists (map (λ i, [i]) cl). split; [apply Hrun|].
    apply singletons_subset_of_size.
  - destruct IH as (g & Hg & Hall); [lia|].
    destruct (run_step _ _ _ _ _ _ _ _ _ _ _ _ Hrun (1 + Z.of_nat n))
      as (cur & next & Hcur & Hnext & _ & _ & _ & Hmem); [lia|].
    assert (cur = g) as -> by congruence.
    exists next. split; [rewrite <-Hnext; f_equal; lia|].
    apply Forall_forall. intros u [Hu _]%Hmem.
    replace (1 + Z.of_nat n) with (Z.of_nat (Datatypes.S n)) in Hu by lia.
    pose proof (candidates_subset_of_size cl (Datatypes.S n) g Hall) as Hc.
    rewrite Forall_forall in Hc. by apply Hc.
Qed.

Lemma run_size_bound (T : scal) σ clusters σ' m :
  run_facts T σ clusters σ' m → m ≤ len cl + 1.
Proof.
  intros Hrun. destruct (decide (m ≤ 1)) as [|Hgt]; [unfold len; lia|].
  destruct (run_generations T σ clusters σ' m Hrun (Z.to_nat (m - 2)))
    as (g & Hg & Hall); [lia|].
  destruct (run_step _ _ _ _ _ _ _ _ _ _ _ _ Hrun (m - 1))
    as (cur & _ & Hcur & _ & Hne & _); [lia|].
  replace (1 + Z.of_nat (Z.to_nat (m - 2))) with (m - 1) in Hg by lia.
  assert (cur = g) as -> by congruence.
  apply generation_size_bound in Hall; [|done]. unfold len. lia.
Qed.
End Runs.

(** C8 (as amended).  [solve] has no [maxClusterSize] option -- a call
    that passes it is rejected when the arguments are bound -- and the
    grower has no cap on the cluster size: the [while] loop of
    [solve], started as [solve] starts it on any co-occurrence matrix,
    stops only at an empty generation.  In a run that returns, every
    generation before the final one is non-empty, the final one is
    empty, and a generation of size [k] holds lists of [k] distinct
    indices of [cluster], so the final size is at most
    [len(cluster) + 1]. *)
Theorem solve_has_no_size_cap {SC : Scalar} {CO : Collaborators SC}
    (self : Self) (X : matrix) (threshold : scal)
    (cluster : option (list Z)) (priorLmbda : scal) (numSamples : option Z)
    (meanFieldRef independentRef : bool) (meanFieldPriorLmbda : option scal)
    (return_all : bool) (σ : Registry) (coocMat : matrix) (cl : list Z)
    (mfpl : scal) :
  "maxClusterSize"%string ∉ solve_parameters ∧
  solve_with_keywords ["maxClusterSize"%string] self X threshold cluster
    priorLmbda numSamples meanFieldRef independentRef meanFieldPriorLmbda
    return_all σ
  = (Raise TypeError, σ) ∧
  ∀ m clusters σ',
    registry_ok coocMat meanFieldRef priorLmbda numSamples independentRef
      mfpl σ →
    grow_loop (Datatypes.S (length cl)) coocMat threshold 1
      {[ 1 := map (λ i, [i]) cl ]} meanFieldRef priorLmbda numSamples
      independentRef mfpl σ
    = (Ok (m, clusters), σ') →
    1 ≤ m ≤ len cl + 1 ∧
    clusters !! m = Some [] ∧
    (∀ k, k < 1 ∨ m < k → clusters !! k = None) ∧
    ∀ k, 1 ≤ k < m →
      ∃ g, clusters !! k = Some g ∧ g ≠ [] ∧
           Forall (is_subset_of_size cl (Z.to_nat k)) g.
Proof.
  split_and!.
  - compute_done.
  - done.
  - intros m clusters σ' Hok Hrun.
    pose proof (loop_run_facts _ _ _ _ _ _ _ _ _ _ _ _ Hok Hrun) as Hfacts.
    pose proof (run_size_bound _ _ _ _ _ _ _ _ _ _ _ _ Hfacts) as Hbound.
    split_and!.
    + apply Hfacts.
    + done.
    + apply Hfacts.
    + apply Hfacts.
    + intros k Hk.
      destruct (run_step _ _ _ _ _ _ _ _ _ _ _ _ Hfacts k Hk)
        as (cur & _ & Hcur & _ & Hne & _).
      destruct (run_generations _ _ _ _ _ _ _ _ _ _ _ _ Hfacts (Z.to_nat (k - 1)))
        as (g & Hg & Hall); [lia|].
      replace (1 + Z.of_nat (Z.to_nat (k - 1))) with k in Hg by lia.
      assert (cur = g) as -> by congruence.
      exists g. split_and!; [done|done|].
      by replace (Z.to_nat k) with (Datatypes.S (Z.to_nat (k - 1))) by lia.
Qed.

(** An instance of the last part of C8: on four variables the grower
    reaches the cluster of all four and stops at the empty generation
    of size 5. *)
Lemma solve_has_no_size_cap_witness :
  let clusters : gmap Z (list (list Z)) :=
    {[ 1 := [[0]; [1]; [2]; [3]];
       2 := [[0; 3]; [1; 2]; [1; 3]; [2; 3]];
       3 := [[0; 1; 3]; [0; 2; 3]; [1; 2; 3]];
       4 := [[0; 1; 2; 3]]; 5 := [] ]} in
  1 ≤ 5 ≤ 4 + 1 ∧ clusters !! 5 = Some [] ∧
  ∀ k, 1 ≤ k < 5 →
    ∃ g, clusters !! k = Some g ∧ g ≠ [] ∧
         Forall (is_subset_of_size [0; 1; 2; 3] (Z.to_nat k)) g.
Proof.
  intros clusters.
  destruct (proj2 (proj2 (solve_has_no_size_cap (SC:=FloatModel.binary64)
              (CO:=FloatModel.stand_ins) constructed []
              0x1.3cd35a8587941p+0%float None 0%float
              None true false None true empty_registry FloatModel.coocMat4
              [0; 1; 2; 3] 0%float))
              5 clusters
              (grow_loop (SC:=FloatModel.binary64) (CO:=FloatModel.stand_ins)
                 5 FloatModel.coocMat4 0x1.3cd35a8587941p+0%float 1
                 {[ 1 := [[0]; [1]; [2]; [3]] ]} true 0%float None false
                 0%float empty_registry).2)
    as (Hm & Hlast & _ & Hgen).
  - apply registry_ok_empty.
  - vm_compute. reflexivity.
  - split; [exact Hm | split; [exact Hlast | exact Hgen]].
Defined.

(** C8 as stated fails: [maxClusterSize] is not among the parameters
    of [solve], and a call that passes it raises [TypeError] instead of
    returning a generation. *)
Lemma solve_rejects_maxClusterSize :
  "maxClusterSize"%string ∉ solve_parameters ∧
  solve_with_keywords ["maxClusterSize"%string] constructed samples3 0 None 0
    None false true None true empty_registry
  = (Raise TypeError, empty_registry).
Proof. split; [compute_done|done]. Qed.

(** ** Memo values are determined by the cluster identity *)

Section Agreement.
Context {SC : Scalar} {CO : Collaborators SC} (laws : ScalarLaws SC).
Variables (coocMat : matrix) (meanFieldRef : bool) (priorLmbda : scal)
  (numSamples : option Z) (independentRef : bool)
  (meanFieldPriorLmbda : scal).
Hypothesis by_identity :
  entropies_by_identity coocMat priorLmbda numSamples independentRef
    meanFieldPriorLmbda.

Local Abbreviation ok := (registry_ok coocMat meanFieldRef priorLmbda
  numSamples independentRef meanFieldPriorLmbda).
Local Abbreviation start := (start coocMat meanFieldRef priorLmbda
  numSamples independentRef meanFieldPriorLmbda).

Lemma start_value (c : list Z) :
  (start c).1 =
  if independentRef || meanFieldRef
  then s_sub (full_entropy coocMat priorLmbda numSamples c)
             (reference_entropy coocMat numSamples independentRef
                meanFieldPriorLmbda c)
  else full_entropy coocMat priorLmbda numSamples c.
Proof.
  unfold start_def, subtract_reference, full, reference_entropy. simpl.
  destruct independentRef, meanFieldRef; simpl; by repeat case_match.
Qed.

Lemma start_by_identity (c c' : list Z) :
  c ≡ₚ c' → (start c).1 = (start c').1.
Proof.
  intros Hperm. destruct (by_identity c c' Hperm) as [Hfull Href].
  rewrite !start_value. by rewrite Hfull, Href.
Qed.

Lemma nonempty_subsets_by_identity (c c' : list Z) :
  clusterID c = clusterID c' → nonempty_subsets c = nonempty_subsets c'.
Proof. unfold nonempty_subsets. by intros ->. Qed.

(** Every entry, together with the entries of the strict
    sub-clusters, adds up to the starting value of its cluster. *)
Lemma registry_value (σ : Registry) (k : list Z) :
  ok σ → is_Some (deltaSdict σ !! k) →
  ∃ B, clusterID B = k ∧ NoDup B ∧ B ≠ [] ∧
       s_add (memo σ k) (sum_over (memo σ) (clusterID <$> strict_subclusters B))
       = (start B).1.
Proof.
  intros Hok [v Hv].
  destruct (ok_value _ _ _ _ _ _ _ Hok _ _ Hv) as (B & Hid & HvB).
  destruct (ok_key _ _ _ _ _ _ _ Hok k) as (Hne & Hnd & _); [by eexists|].
  exists B. split_and!; [done| | |].
  - apply np_sort_NoDup. unfold clusterID in Hid. by rewrite Hid.
  - intros ->. apply Hne. by rewrite <-Hid.
  - unfold memo at 1. rewrite Hv. simpl.
    rewrite (sum_over_fmap (memo σ) clusterID), HvB.
    apply (fold_sub_add_back laws).
Qed.

Lemma registry_agree (σ1 σ2 : Registry) :
  ok σ1 → ok σ2 →
  ∀ (n : nat) (k : list Z), (length k ≤ n)%nat →
    is_Some (deltaSdict σ1 !! k) → is_Some (deltaSdict σ2 !! k) →
    memo σ1 k = memo σ2 k.
Proof.
  intros Hok1 Hok2. induction n as [|n IH]; intros k Hlen Hk1 Hk2.
  { destruct (ok_key _ _ _ _ _ _ _ Hok1 k Hk1) as (Hne & _).
    destruct k; [done|simpl in Hlen; lia]. }
  destruct (registry_value σ1 k Hok1 Hk1) as (B1 & Hid1 & Hnd1 & Hne1 & Hsum1).
  destruct (registry_value σ2 k Hok2 Hk2) as (B2 & Hid2 & Hnd2 & Hne2 & Hsum2).
  assert (B1 ≡ₚ B2) as Hperm by (apply clusterID_perm; congruence).
  assert (clusterID <$> strict_subclusters B2
          ≡ₚ clusterID <$> strict_subclusters B1) as Hrest.
  { apply (Permutation_cons_inv (a := k)).
    pose proof (decomposition_perm B1 Hnd1 Hne1) as Hd1.
    pose proof (decomposition_perm B2 Hnd2 Hne2) as Hd2.
    rewrite Hid1 in Hd1. rewrite Hid2 in Hd2.
    rewrite <-Hd1, <-Hd2.
    by rewrite (nonempty_subsets_by_identity B2 B1) by congruence. }
  set (rest1 := clusterID <$> strict_subclusters B1) in *.
  set (rest2 := clusterID <$> strict_subclusters B2) in *.
  rewrite (sum_over_perm laws _ _ _ Hrest) in Hsum2.
  assert (sum_over (memo σ1) rest1 = sum_over (memo σ2) rest1) as Heq.
  { apply sum_over_ext. intros id [x [-> Hx]]%list_elem_of_fmap.
    destruct (strict_subclusters_elem B1 x Hnd1 Hx) as (Hxnd & Hxin & Hxlen).
    assert (x ≠ []) by (destruct x; [simpl in *; lia|done]).
    assert (x ⊆ k) as Hxk.
    { intros a Ha. rewrite <-Hid1. apply np_sort_elem. by apply Hxin. }
    apply IH.
    - rewrite clusterID_length.
      apply (f_equal length) in Hid1. rewrite clusterID_length in Hid1. lia.
    - by eapply (ok_closed _ _ _ _ _ _ _ Hok1).
    - by eapply (ok_closed _ _ _ _ _ _ _ Hok2). }
  apply (add_cancel_r laws _ _ (sum_over (memo σ1) rest1)).
  rewrite Hsum1. rewrite Heq, Hsum2. by apply start_by_identity.
Qed.
End Agreement.


Lemma stand_ins_by_identity (coocMat : matrix) (priorLmbda : scal)
    (numSamples : option Z) (independentRef : bool) (mfpl : scal) :
  entropies_by_identity coocMat priorLmbda numSamples independentRef mfpl.
Proof.
  intros c c' Hperm.
  unfold full_entropy, full_J, reference_entropy, Sindependent. simpl.
  unfold block. by rewrite (np_sort_of_perm c c' Hperm).
Qed.



(** ** Termination: the growth loop never runs out of fuel *)

Section Totality.
Context {SC : Scalar} {CO : Collaborators SC}.
Variables (coocMat : matrix) (T : scal) (meanFieldRef : bool)
  (priorLmbda : scal) (numSamples : option Z) (independentRef : bool)
  (meanFieldPriorLmbda : scal) (cl : list Z).
Hypothesis valid_mode : xorb independentRef meanFieldRef = true.

Local Abbreviation ok := (registry_ok coocMat meanFieldRef priorLmbda
  numSamples independentRef meanFieldPriorLmbda).

Lemma grow_pair_total (k : nat) (current next : list (list Z))
    (ij : nat * nat) σ :
  ok σ → Forall (is_subset_of_size cl (Datatypes.S k)) current →
  ij ∈ index_pairs (length current) →
  ∃ next' σ',
    grow_pair coocMat T (Z.of_nat (Datatypes.S k)) current meanFieldRef
      priorLmbda numSamples independentRef meanFieldPriorLmbda next ij σ
    = (Ok next', σ') ∧ ok σ'.
Proof.
  intros Hok Hcur Hij. destruct ij as [i j].
  apply elem_of_index_pairs in Hij as [Hlt Hj].
  destruct (lookup_lt_is_Some_2 current i) as [g1 H1]; [lia|].
  destruct (lookup_lt_is_Some_2 current j) as [g2 H2]; [lia|].
  unfold grow_pair, list_get. cbn [fst snd]. rewrite H1, H2.
  unfold bind at 1. unfold bind at 1. unfold lift.
  fold (merged g1 g2).
  destruct (len (np_intersect1d g1 g2) =? Z.of_nat (Datatypes.S k) - 1);
    [|by eexists _, _].
  unfold bind at 1. unfold emit at 1.
  set (σ1 := mkRegistry _ _ _).
  assert (ok σ1) as Hok1 by (by apply registry_ok_emit).
  rewrite Forall_forall in Hcur.
  assert (g1 ≠ []) as Hne.
  { destruct (Hcur g1) as (_ & Hlen & _); [by eapply list_elem_of_lookup_2|].
    by destruct g1. }
  destruct (deltaS_here_total coocMat meanFieldRef priorLmbda numSamples
              independentRef meanFieldPriorLmbda
              (Datatypes.S (length (merged g1 g2))) valid_mode
              (merged g1 g2) σ1 Hok1)
    as ([dS dJ] & σ2 & Hcall);
    [by apply merged_nonempty|apply merged_NoDup|lia|].
  pose proof (deltaS_here_post _ _ _ _ _ _ _ _ _ _ _ Hok1 Hcall) as [Hok2 _].
  unfold bind. rewrite (deltaS_unfold _ _ _ _ _ meanFieldPriorLmbda) by done.
  rewrite Hcall.
  destruct (s_gtb (s_abs dS) T && negb (bool_decide (merged g1 g2 ∈ next)));
    by eexists _, _.
Qed.

Lemma grow_generation_total (k : nat) (current : list (list Z)) σ :
  ok σ → Forall (is_subset_of_size cl (Datatypes.S k)) current →
  ∃ next σ',
    grow_generation coocMat T (Z.of_nat (Datatypes.S k)) current meanFieldRef
      priorLmbda numSamples independentRef meanFieldPriorLmbda σ
    = (Ok next, σ') ∧ ok σ' ∧
    Forall (is_subset_of_size cl (Datatypes.S (Datatypes.S k))) next.
Proof.
  intros Hok Hcur. unfold grow_generation.
  edestruct (foldM_total (A := nat * nat) (B := list (list Z))) with (I := ok)
    as (next & σ' & Hrun & Hok'); [|exact Hok|].
  { intros acc ij σ1 Hij Hok1. by apply (grow_pair_total k). }
  exists next, σ'. split_and!; [exact Hrun|done|].
  apply grow_generation_post in Hrun as (_ & _ & _ & _ & _ & Hmem); [|done].
  pose proof (candidates_subset_of_size cl (Datatypes.S k) current Hcur) as Hc.
  rewrite Forall_forall in Hc |- *. intros u [Hu _]%Hmem. by apply Hc.
Qed.

(** With fuel for one pass more than there are sizes left, the loop
    returns. *)
Lemma grow_loop_total (fuel : nat) :
  ∀ (k : nat) (clusters : gmap Z (list (list Z))) current σ,
    ok σ →
    clusters !! Z.of_nat (Datatypes.S k) = Some current →
    Forall (is_subset_of_size cl (Datatypes.S k)) current →
    (length cl + 1 ≤ k + fuel)%nat → (1 ≤ fuel)%nat →
    ∃ m clusters' σ',
      grow_loop fuel coocMat T (Z.of_nat (Datatypes.S k)) clusters
        meanFieldRef priorLmbda numSamples independentRef
        meanFieldPriorLmbda σ
      = (Ok (m, clusters'), σ').
Proof.
  induction fuel as [|fuel IH]; intros k clusters current σ Hok Hk Hcur Hfuel Hpos;
    [lia|].
  cbn [grow_loop]. unfold bind at 1. unfold lift, dict_get. rewrite Hk.
  destruct (len current >? 0) eqn:Hlen; [|by eexists _, _, _].
  assert (current ≠ []) as Hne by (by intros ->).
  pose proof (generation_size_bound cl _ current Hcur Hne) as Hbound.
  destruct (grow_generation_total k current σ Hok Hcur)
    as (next & σ1 & Hgen & Hok1 & Hnext).
  unfold bind. rewrite Hgen.
  replace (Z.of_nat (Datatypes.S k) + 1)
    with (Z.of_nat (Datatypes.S (Datatypes.S k))) by lia.
  apply (IH (Datatypes.S k) _ next); [done| |done|lia|lia].
  by rewrite lookup_insert_eq.
Qed.
End Totality.

Section SolveReturns.
Context {SC : Scalar} {CO : Collaborators SC}.
Variables (coocMat : matrix) (T : scal) (meanFieldRef : bool)
  (priorLmbda : scal) (numSamples : option Z) (independentRef : bool)
  (mfpl : scal) (cl : list Z).

Lemma elem_of_dict_keys (clusters : gmap Z (list (list Z))) (k : Z) :
  k ∈ dict_keys clusters ↔ is_Some (clusters !! k).
Proof.
  unfold dict_keys. by rewrite np_sort_elem, elem_of_elements, elem_of_dom.
Qed.

(** When the index list holds two different indices, every retained
    cluster has its entries, so the assembly finds them all. *)
Lemma assemble_total σ clusters σ' m (start : scal * matrix) :
  (∃ i j a b, (i < j)%nat ∧ cl !! i = Some a ∧ cl !! j = Some b ∧ a ≠ b) →
  run_facts coocMat cl priorLmbda numSamples meanFieldRef independentRef
    mfpl T σ clusters σ' m →
  ∃ r, assemble clusters start σ' = (Ok r, σ').
Proof.
  intros (i & j & a & b & Hij & Hi & Hj & Hab) F.
  pose proof (run_ok _ _ _ _ _ _ _ _ _ _ _ _ F) as Hok.
  assert (Hgen1 : map (λ i, [i]) cl ≠ []) by (destruct cl; [by rewrite lookup_nil in Hi|done]).
  assert (1 < m) as Hm.
  { pose proof (run_size _ _ _ _ _ _ _ _ _ _ _ _ F).
    pose proof (run_first _ _ _ _ _ _ _ _ _ _ _ _ F) as H1.
    pose proof (run_last _ _ _ _ _ _ _ _ _ _ _ _ F) as Hl.
    destruct (decide (m = 1)) as [->|]; [congruence|lia]. }
  assert (Hmemo : ∀ k g c, clusters !! k = Some g → c ∈ g →
            is_Some (deltaSdict σ' !! clusterID c)).
  { intros k g c Hk Hc.
    destruct (decide (1 ≤ k ≤ m)) as [Hin|Hout];
      [|by rewrite (run_outside _ _ _ _ _ _ _ _ _ _ _ _ F k) in Hk by lia].
    destruct (decide (k = 1)) as [->|Hne].
    - rewrite (run_first _ _ _ _ _ _ _ _ _ _ _ _ F) in Hk.
      injection Hk as <-. apply list_elem_of_fmap in Hc as (x & -> & Hx).
      destruct (run_step _ _ _ _ _ _ _ _ _ _ _ _ F 1)
        as (cur & _ & Hcur & _ & _ & _ & Hdom & _); [lia|].
      rewrite (run_first _ _ _ _ _ _ _ _ _ _ _ _ F) in Hcur.
      injection Hcur as <-. rewrite Forall_forall in Hdom.
      assert (∃ y, y ∈ cl ∧ y ≠ x) as (y & Hy & Hyx).
      { destruct (decide (a = x)) as [->|].
        - exists b. split; [by eapply list_elem_of_lookup_2|done].
        - exists a. split; [by eapply list_elem_of_lookup_2|done]. }
      apply list_elem_of_lookup in Hx as [ix Hix], Hy as [iy Hiy].
      assert (ix ≠ iy) by (intros ->; congruence).
      assert (merged [x] [y] ∈ candidates 1 (map (λ i, [i]) cl)) as Hcand.
      { apply elem_of_candidates. destruct (decide (ix < iy)%nat).
        - exists ix, iy, [x], [y].
          split_and!; [done| | |by apply singletons_qualify|done];
            by rewrite list_lookup_fmap, ?Hix, ?Hiy.
        - exists iy, ix, [y], [x].
          split_and!; [lia| | |by apply singletons_qualify|apply merged_comm];
            by rewrite list_lookup_fmap, ?Hix, ?Hiy. }
      apply Hdom in Hcand.
      apply (ok_closed _ _ _ _ _ _ _ Hok (merged [x] [y]));
        [done|done|apply NoDup_singleton|].
      intros z ->%list_elem_of_singleton. apply merged_elem. left. left.
    - destruct (run_step _ _ _ _ _ _ _ _ _ _ _ _ F (k - 1))
        as (cur & next & _ & Hnext & _ & _ & Hdom & Hmem); [lia|].
      replace (k - 1 + 1) with k in Hnext by lia.
      assert (next = g) as -> by congruence.
      apply Hmem in Hc as [Hc _].
      rewrite Forall_forall in Hdom. specialize (Hdom c Hc).
      apply elem_of_candidates in Hc as (? & ? & g1 & g2 & _ & _ & _ & _ & ->).
      by rewrite merged_identity. }
  unfold assemble.
  edestruct (foldM_total (A := Z) (B := scal * matrix))
    with (I := λ s : Registry, s = σ') as (r & ? & Hrun & ->); [|done|by eauto].
  intros acc size ? [g Hg]%elem_of_dict_keys ->.
  unfold bind at 1. unfold lift, dict_get. rewrite Hg.
  eapply foldM_total; [|done].
  intros [ent J] c ? Hc ->.
  destruct (Hmemo size g c Hg Hc) as [dS HdS].
  destruct (proj1 (ok_both _ _ _ _ _ _ _ Hok (clusterID c))) as [dJ HdJ];
    [by eexists|].
  unfold bind, get_registry, lift, dict_get, ret. rewrite HdS, HdJ.
  by eexists _, _.
Qed.
End SolveReturns.

(** The grower terminates, and the assembly after it succeeds.  In a
    valid reference mode, on dictionaries that only [deltaS] has
    written, the [while] loop of [solve] -- started as [solve] starts
    it on any co-occurrence matrix -- returns within the
    [len(cluster) + 1] iterations of its bound; when the index list
    holds two different indices, the assembly that follows finds every
    entry it reads and returns, leaving the registry as the loop left
    it.  The routines outside [solvers.py] are taken to return. *)
Theorem growth_and_assembly_return {SC : Scalar} {CO : Collaborators SC}
    (coocMat : matrix) (threshold : scal) (cluster : list Z)
    (priorLmbda : scal) (numSamples : option Z)
    (meanFieldRef independentRef : bool) (meanFieldPriorLmbda : scal)
    (start : scal * matrix) (σ : Registry) :
  xorb independentRef meanFieldRef = true →
  registry_ok coocMat meanFieldRef priorLmbda numSamples independentRef
    meanFieldPriorLmbda σ →
  ∃ m clusters σ',
    grow_loop (Datatypes.S (length cluster)) coocMat threshold 1
      {[ 1 := map (λ i, [i]) cluster ]} meanFieldRef priorLmbda numSamples
      independentRef meanFieldPriorLmbda σ
    = (Ok (m, clusters), σ') ∧
    ((∃ i j a b, (i < j)%nat ∧ cluster !! i = Some a ∧
                 cluster !! j = Some b ∧ a ≠ b) →
     ∃ r, assemble clusters start σ' = (Ok r, σ')).
Proof.
  intros Hmode Hok.
  destruct (grow_loop_total coocMat threshold meanFieldRef priorLmbda numSamples
              independentRef meanFieldPriorLmbda cluster Hmode
              (Datatypes.S (length cluster)) 0
              {[ 1 := map (λ i, [i]) cluster ]}
              (map (λ i, [i]) cluster) σ Hok)
    as (m & clusters & σ' & Hloop);
    [by rewrite lookup_singleton_eq|apply singletons_subset_of_size|lia|lia|].
  change (Z.of_nat 1) with 1 in Hloop.
  exists m, clusters, σ'. split; [done|]. intros Htwo.
  pose proof (loop_run_facts _ _ _ _ _ _ _ _ _ _ _ _ Hok Hloop) as F.
  by eapply assemble_total.
Qed.

Lemma growth_and_assembly_return_witness :
  ∃ m clusters σ',
    grow_loop 4 ([[3; 2; 1]; [2; 3; 0]; [1; 0; 3]] : matrix) 20 1
      {[ 1 := [[0]; [1]; [2]] ]} true 0 None false 0 empty_registry
    = (Ok (m, clusters), σ') ∧
    ∃ r, assemble clusters (0, np_zeros 3) σ' = (Ok r, σ').
Proof.
  destruct (growth_and_assembly_return (SC:=Z_scalar) (CO:=stand_ins)
              [[3; 2; 1]; [2; 3; 0]; [1; 0; 3]] 20 [0; 1; 2] 0 None true false
              0 (0, np_zeros 3) empty_registry eq_refl
              (registry_ok_empty _ _ _ _ _ _))
    as (m & clusters & σ' & Hloop & Hasm).
  exists m, clusters, σ'. split; [exact Hloop|]. apply Hasm.
  exists 0%nat, 1%nat, 0, 1. split_and!; [lia|reflexivity|reflexivity|lia].
Defined.

(** ** [solve] on an instance as the class constructs it *)

(** [solve] never gets past its first statement: on an instance as
    [ClusterExpansion] constructs it, every call -- whatever the data,
    the threshold, the reference modes and the dictionaries -- raises
    [AttributeError] at the lookup of [self.coocurrence_matrix] and
    leaves the registry untouched. *)
Theorem solve_raises_attribute_error {SC : Scalar} {CO : Collaborators SC}
    (X : matrix) (threshold : scal) (cluster : option (list Z))
    (priorLmbda : scal) (numSamples : option Z)
    (meanFieldRef independentRef : bool) (meanFieldPriorLmbda : option scal)
    (return_all : bool) (σ : Registry) :
  solve constructed X threshold cluster priorLmbda numSamples meanFieldRef
    independentRef meanFieldPriorLmbda return_all σ
  = (Raise AttributeError, σ).
Proof. reflexivity. Qed.

(** ** A data set with a single variable *)

(** A single index never reaches [deltaS].  From a one-element index
    list the grower evaluates no candidate: it stores an empty
    generation of size 2 and returns with the registry untouched.  The
    assembly then looks the singleton up, and raises [KeyError] when
    its identity is not in [deltaSdict] -- as with fresh dictionaries. *)
Theorem single_index_key_error {SC : Scalar} {CO : Collaborators SC}
    (coocMat : matrix) (threshold : scal) (priorLmbda : scal)
    (numSamples : option Z) (meanFieldRef independentRef : bool)
    (meanFieldPriorLmbda : scal) (start : scal * matrix) (σ : Registry)
    (a : Z) :
  grow_loop 2 coocMat threshold 1 {[ 1 := [[a]] ]} meanFieldRef priorLmbda
    numSamples independentRef meanFieldPriorLmbda σ
  = (Ok (2, <[ 2 := [] ]> {[ 1 := [[a]] ]}), σ) ∧
  (deltaSdict σ !! [a] = None →
   assemble (<[ 2 := [] ]> {[ 1 := [[a]] ]}) start σ = (Raise KeyError, σ)).
Proof.
  split; [reflexivity|]. intros Hmiss.
  unfold assemble.
  replace (dict_keys (<[ 2 := [] ]> {[ 1 := [[a]] ]})) with [1; 2]
    by (by vm_compute).
  cbn [foldM]. apply bind_raise.
  unfold bind at 1, lift at 1, dict_get at 1.
  rewrite lookup_insert_ne, lookup_singleton_eq by done.
  cbn [foldM]. destruct start as [ent0 J0]. apply bind_raise.
  unfold bind, get_registry, lift, dict_get.
  change (clusterID [a]) with [a]. by rewrite Hmiss.
Qed.

Lemma single_index_key_error_witness :
  assemble (<[ 2 := [] ]> {[ 1 := [[0]] ]}) (0, [[0]]) empty_registry
  = (Raise KeyError, empty_registry).
Proof.
  apply (proj2 (single_index_key_error (SC:=Z_scalar) (CO:=stand_ins)
                  [[1]] 0 0 None true false 0 (0, [[0]]) empty_registry 0)).
  reflexivity.
Defined.

(** ** The enumeration order of [subsets] *)

Example subsets_3_2 :
  subsets [0; 1; 2] 2 false = Ok [[1; 2]; [1; 0]; [2; 0]].
Proof. vm_compute. reflexivity. Qed.

Example subsets_sorted :
  subsets [3; 1; 2] 2 true = Ok [[1; 2]; [1; 3]; [2; 3]].
Proof. vm_compute. reflexivity. Qed.

(** ** [deltaS] on well-formed and ill-formed clusters *)

(** [deltaS] returns on every non-empty duplicate-free cluster: in a
    valid reference mode and on a registry that only [deltaS] has
    written, the recursion ends within its depth bound, the subset
    enumeration succeeds at every level and no lookup misses. *)
Theorem deltaS_returns {SC : Scalar} {CO : Collaborators SC}
    (coocMat : matrix) (meanFieldRef : bool) (priorLmbda : scal)
    (numSamples : option Z) (independentRef : bool)
    (meanFieldPriorLmbda : option scal) (c : list Z) (σ : Registry) :
  xorb independentRef meanFieldRef = true →
  registry_ok coocMat meanFieldRef priorLmbda numSamples independentRef
    (default priorLmbda meanFieldPriorLmbda) σ →
  c ≠ [] → NoDup c →
  ∃ r σ', deltaS c coocMat meanFieldRef priorLmbda numSamples independentRef
            meanFieldPriorLmbda σ = (Ok r, σ').
Proof.
  intros Hmode Hok Hne Hnd.
  rewrite (deltaS_unfold _ _ _ _ _ (default priorLmbda meanFieldPriorLmbda))
    by done.
  apply deltaS_here_total; [done..|lia].
Qed.

Lemma deltaS_returns_witness :
  ∃ r σ', deltaS [2; 0; 1] ([[3; 2; 2]; [2; 3; 2]; [2; 2; 3]] : matrix)
            false 0 None true None empty_registry = (Ok r, σ').
Proof.
  apply (deltaS_returns (SC:=Z_scalar) (CO:=stand_ins)).
  - reflexivity.
  - apply registry_ok_empty.
  - done.
  - compute_done.
Defined.

Lemma not_NoDup_length (c : list Z) : ¬ NoDup c → (2 ≤ length c)%nat.
Proof.
  intros Hdup. destruct c as [|a [|b c]]; simpl; [| |lia].
  - destruct Hdup. constructor.
  - destruct Hdup. apply NoDup_singleton.
Qed.

Lemma subsets_duplicate (c : list Z) (size : Z) (sort : bool) :
  ¬ NoDup c → subsets c size sort = Raise Exception.
Proof.
  intros Hdup. destruct (subsets c size sort) as [L|e] eqn:Hs.
  - by apply subsets_ok_NoDup in Hs.
  - rewrite subsets_unfold in Hs.
    rewrite bool_decide_eq_false_2 in Hs by done. simpl in Hs. congruence.
Qed.

(** [deltaS] rejects ill-formed clusters that are not memoized.  On the
    empty cluster the entropy computation raises at once.  On a cluster
    that repeats an index the numerical solver runs on the cluster
    first, then the first subset enumeration raises; neither case
    writes to the dictionaries. *)
Theorem deltaS_ill_formed_cluster {SC : Scalar} {CO : Collaborators SC}
    (coocMat : matrix) (meanFieldRef : bool) (priorLmbda : scal)
    (numSamples : option Z) (independentRef : bool)
    (meanFieldPriorLmbda : option scal) (c : list Z) (σ : Registry) :
  xorb independentRef meanFieldRef = true →
  deltaSdict σ !! clusterID c = None →
  (c = [] →
   deltaS c coocMat meanFieldRef priorLmbda numSamples independentRef
     meanFieldPriorLmbda σ
   = (Raise Exception,
      mkRegistry (deltaSdict σ) (deltaJdict σ) (EvS [] :: trace σ))) ∧
  (¬ NoDup c →
   deltaS c coocMat meanFieldRef priorLmbda numSamples independentRef
     meanFieldPriorLmbda σ
   = (Raise Exception,
      mkRegistry (deltaSdict σ) (deltaJdict σ)
        (EvNumeric c :: EvS c :: trace σ))).
Proof.
  intros Hmode Hmiss.
  assert ((independentRef && meanFieldRef)
          || negb (independentRef || meanFieldRef) = false) as Hvalid
    by (by destruct independentRef, meanFieldRef).
  split.
  - intros ->.
    rewrite (deltaS_unfold _ _ _ _ _ (default priorLmbda meanFieldPriorLmbda))
      by done.
    rewrite deltaS_here_unfold, Hvalid. unfold bind at 1, get_registry.
    rewrite Hmiss. by rewrite (bind_raise _ _ _ _ _ (S_empty _ _ _ _ _)).
  - intros Hdup. pose proof (not_NoDup_length c Hdup) as Hlen.
    assert (c ≠ []) as Hne by (intros ->; simpl in Hlen; lia).
    rewrite (deltaS_unfold _ _ _ _ _ (default priorLmbda meanFieldPriorLmbda))
      by done.
    rewrite deltaS_here_unfold, Hvalid. unfold bind at 1, get_registry.
    rewrite Hmiss. unfold bind at 1. rewrite S_numeric by done.
    apply bind_raise. unfold subtract_subclusters.
    destruct (py_range_down (len c - 1) 0) as [|size sizes] eqn:Hsizes.
    { apply py_range_down_nonempty in Hsizes; [done|unfold len; lia]. }
    cbn [foldM]. apply bind_raise. apply bind_raise.
    unfold lift. by rewrite subsets_duplicate.
Qed.

Lemma deltaS_ill_formed_cluster_witness :
  deltaS [0; 0] ([[3; 2; 2]; [2; 3; 2]; [2; 2; 3]] : matrix) false 0 None true
    None empty_registry
  = (Raise Exception, mkRegistry ∅ ∅ [EvNumeric [0; 0]; EvS [0; 0]]).
Proof.
  apply (proj2 (deltaS_ill_formed_cluster (SC:=Z_scalar) (CO:=stand_ins)
                  [[3; 2; 2]; [2; 3; 2]; [2; 2; 3]] false 0 None true None
                  [0; 0] empty_registry eq_refl eq_refl)).
  intros Hnd. apply NoDup_cons in Hnd as [Hin _]. apply Hin. left.
Defined.

(** ** The footprint of [deltaS]: one computation per new identity *)

Lemma elem_of_stores (tr : list Event) (k : list Z) :
  k ∈ stores tr ↔ EvStore k ∈ tr.
Proof.
  unfold stores. rewrite list_elem_of_omap. split.
  - intros ([] & He & [= ->]). done.
  - intros He. by exists (EvStore k).
Qed.

Lemma stores_app (a b : list Event) : stores (a ++ b) = stores a ++ stores b.
Proof. apply omap_app. Qed.

Lemma numeric_calls_app (a b : list Event) :
  numeric_calls (a ++ b) = numeric_calls a ++ numeric_calls b.
Proof. apply omap_app. Qed.

Lemma entropy_calls_app (a b : list Event) :
  entropy_calls (a ++ b) = entropy_calls a ++ entropy_calls b.
Proof. apply omap_app. Qed.

Section Footprint.
Context {SC : Scalar} {CO : Collaborators SC}.
Variables (coocMat : matrix) (meanFieldRef : bool) (priorLmbda : scal)
  (numSamples : option Z) (independentRef : bool)
  (meanFieldPriorLmbda : scal).
Local Abbreviation ok := (registry_ok coocMat meanFieldRef priorLmbda
                    numSamples independentRef meanFieldPriorLmbda).
Local Abbreviation post := (deltaS_post coocMat meanFieldRef priorLmbda
                    numSamples independentRef meanFieldPriorLmbda).
Local Abbreviation here := (deltaS_here coocMat meanFieldRef priorLmbda
                    numSamples independentRef meanFieldPriorLmbda).

Lemma footprint_refl (c : list Z) (σ : Registry) : footprint c σ σ.
Proof.
  exists []. split_and!; [done|done|done|constructor|].
  intros k Hk. by apply elem_of_nil in Hk.
Qed.

Lemma footprint_trans (c1 c2 c : list Z) (σ σ1 σ2 : Registry) :
  c1 ⊆ c → c2 ⊆ c →
  deltaSdict σ ⊆ deltaSdict σ1 → deltaSdict σ1 ⊆ deltaSdict σ2 →
  footprint c1 σ σ1 → footprint c2 σ1 σ2 → footprint c σ σ2.
Proof.
  intros Hc1 Hc2 Hsub1 Hsub2 (new1 & Htr1 & Hperm1 & Hent1 & Hnd1 & Hk1)
    (new2 & Htr2 & Hperm2 & Hent2 & Hnd2 & Hk2).
  exists (new2 ++ new1). split_and!.
  - by rewrite Htr2, Htr1, app_assoc.
  - rewrite numeric_calls_app, stores_app, fmap_app. by f_equiv.
  - rewrite entropy_calls_app, numeric_calls_app. congruence.
  - rewrite stores_app. apply NoDup_app. split_and!; [done| |done].
    intros k Hin2 Hin1.
    destruct (Hk2 k Hin2) as (_ & Hnone & _).
    destruct (Hk1 k Hin1) as (_ & _ & [v Hv]). congruence.
  - intros k. rewrite stores_app, elem_of_app. intros [Hin|Hin].
    + destruct (Hk2 k Hin) as (Hkc & Hnone & Hsome). split_and!.
      * by etrans.
      * destruct (deltaSdict σ !! k) as [v|] eqn:Hv; [|done].
        by rewrite (lookup_weaken _ _ _ _ Hv Hsub1) in Hnone.
      * done.
    + destruct (Hk1 k Hin) as (Hkc & Hnone & [v Hv]). split_and!.
      * by etrans.
      * done.
      * exists v. by eapply lookup_weaken.
Qed.

(** The two loops of [deltaS], given the recursive calls' footprints. *)
Lemma subtract_subclusters_footprint (rec : list Z → M (scal * matrix))
    (c : list Z) (acc : scal * matrix) σ r σ' :
  (∀ sub σ1 r1 σ2, ok σ1 → rec sub σ1 = (Ok r1, σ2) →
     post sub σ1 r1 σ2 ∧ footprint sub σ1 σ2) →
  ok σ →
  subtract_subclusters rec c acc σ = (Ok r, σ') →
  footprint c σ σ'.
Proof.
  intros Hrec Hok Hrun. unfold subtract_subclusters in Hrun.
  cut (ok σ' ∧ deltaSdict σ ⊆ deltaSdict σ' ∧ footprint c σ σ');
    [by intros (_ & _ & ?)|].
  revert Hrun. apply foldM_ok_ind with
    (I := λ (_ : list Z) (_ : scal * matrix) σi,
       ok σi ∧ deltaSdict σ ⊆ deltaSdict σi ∧ footprint c σ σi).
  { split_and!; [done|done|apply footprint_refl]. }
  intros _ size a1 σ1 a2 σ2 (Hok1 & Hsub1 & Hfp1) Hsize Hbody.
  apply bind_ok in Hbody as (L & σ1' & [HL ->]%lift_ok & Hinner).
  pose proof (subsets_ok_NoDup _ _ _ _ HL) as Hc.
  apply elem_of_py_range_down in Hsize.
  destruct (subclusters_of_size_enumerates c size Hc)
    as (HL' & _ & Hall & _); [lia|].
  assert (L = subclusters_of_size c size) as -> by congruence.
  cut (ok σ2 ∧ deltaSdict σ1 ⊆ deltaSdict σ2 ∧ footprint c σ1 σ2).
  { intros (? & ? & ?). split_and!; [done|by etrans|].
    by apply (footprint_trans c c c σ σ1 σ2). }
  revert Hinner. apply foldM_ok_ind with
    (I := λ (_ : list (list Z)) (_ : scal * matrix) σi,
       ok σi ∧ deltaSdict σ1 ⊆ deltaSdict σi ∧ footprint c σ1 σi).
  { split_and!; [done|done|apply footprint_refl]. }
  intros _ sub [a ja] σa b σb (Hoka & Hsuba & Hfpa) Hsub Hbody.
  apply bind_ok in Hbody as ([s j] & σb' & Hcall & Hret).
  injection Hret as <- <-.
  destruct (Hrec sub σa (s, j) σb' Hoka Hcall)
    as ((Hokb & Hsubb & _) & Hfpb).
  rewrite Forall_forall in Hall. destruct (Hall sub Hsub) as (_ & _ & Hin).
  split_and!; [done|by etrans|].
  by apply (footprint_trans c sub c σ1 σa σb').
Qed.

Lemma deltaS_here_footprint (fuel : nat) :
  ∀ c σ r σ', ok σ → here fuel c σ = (Ok r, σ') → footprint c σ σ'.
Proof.
  induction fuel as [|fuel IH]; intros c σ r σ' Hok Hrun; [done|].
  pose proof (deltaS_here_post _ _ _ _ _ _ _ _ _ _ _ Hok Hrun)
    as (Hok' & Hsub' & _ & _ & HS' & _ & _ & _ & _ & Hc & Hne).
  rewrite deltaS_here_unfold in Hrun.
  destruct ((independentRef && meanFieldRef)
            || negb (independentRef || meanFieldRef)); [done|].
  apply bind_ok in Hrun as (σ0 & σ1 & [= <- <-] & Hrun).
  destruct (deltaSdict σ !! clusterID c) as [dS|] eqn:HdS.
  - destruct (deltaJdict σ !! clusterID c) as [dJ|] eqn:HdJ; [|done].
    injection Hrun as <- <-. apply footprint_refl.
  - apply bind_ok in Hrun as (fl & σ1 & HS & Hrun).
    rewrite S_numeric in HS by done. injection HS as <- <-.
    apply bind_ok in Hrun as (acc & σ2 & Hloops & Hrun).
    injection Hrun as <- <-.
    assert (ok (mkRegistry (deltaSdict σ) (deltaJdict σ)
                  (EvNumeric c :: EvS c :: trace σ))) as Hok1
      by (by apply registry_ok_S_events).
    pose proof Hloops as Hloops'.
    apply (subtract_subclusters_post coocMat meanFieldRef priorLmbda
             numSamples independentRef meanFieldPriorLmbda) in Hloops'
      as (_ & Hsub2 & _ & _ & Hb2 & _); [| |done].
    2:{ intros sub σa ra σb Hoka Hcall. by eapply deltaS_here_post. }
    apply subtract_subclusters_footprint in Hloops
      as (new & Htr & Hperm & Hent & Hnd & Hk); [| |done].
    2:{ intros sub σa ra σb Hoka Hcall. split.
        - by eapply deltaS_here_post.
        - by eapply IH. }
    simpl in *.
    assert (deltaSdict σ2 !! clusterID c = None) as Hfresh.
    { apply eq_None_not_Some. intros [Hk'|Hk']%Hb2.
      - rewrite HdS in Hk'. by destruct Hk'.
      - rewrite clusterID_length in Hk'. lia. }
    exists (EvStore (clusterID c) :: new ++ [EvNumeric c; EvS c]).
    split_and!.
    + simpl. rewrite Htr. by rewrite <-app_assoc.
    + simpl. rewrite numeric_calls_app, stores_app, fmap_app. simpl.
      rewrite app_nil_r. rewrite Hperm.
      by rewrite <-Permutation_cons_append.
    + simpl. rewrite entropy_calls_app, numeric_calls_app. simpl. congruence.
    + simpl. rewrite stores_app. simpl. rewrite app_nil_r.
      constructor; [|done]. intros Hin.
      destruct (Hk _ Hin) as (_ & _ & [v Hv]). congruence.
    + intros k. simpl. rewrite stores_app. simpl. rewrite app_nil_r.
      intros [->|Hin]%elem_of_cons.
      * split_and!; [|done|by rewrite lookup_insert_eq].
        intros a Ha. by apply (np_sort_elem c a).
      * destruct (Hk k Hin) as (? & ? & [v Hv]). split_and!; [done|done|].
        destruct (decide (clusterID c = k)) as [->|Hneq].
        -- by rewrite lookup_insert_eq.
        -- rewrite lookup_insert_ne by done. by eexists.
Qed.
End Footprint.

Lemma length_nonempty_sublists (l : list Z) :
  (length (filter (λ k, k ≠ []) (sublists l)) + 1 = 2 ^ length l)%nat.
Proof.
  induction l as [|a l IH]; [done|].
  cbn [sublists length]. rewrite filter_app, length_app.
  assert (filter (λ k, k ≠ []) (map (cons a) (sublists l))
          = map (cons a) (sublists l)) as ->.
  { apply filter_all. by intros x [y [-> _]]%list_elem_of_fmap. }
  rewrite length_map.
  assert (length (sublists l) = 2 ^ length l)%nat as ->.
  { clear. induction l as [|a l IH]; [done|].
    cbn [sublists length]. rewrite length_app, length_map, IH.
    rewrite Nat.pow_succ_r'. lia. }
  rewrite Nat.pow_succ_r'. lia.
Qed.

(** [deltaS] computes each new sub-cluster once: a call that returns
    runs the entropy computation -- always the numerical solver --
    exactly once for every non-empty subset of the cluster that the
    dictionaries did not hold, stores exactly those identities, and
    computes nothing else; on empty dictionaries these are the
    [2^n - 1] non-empty subsets of a cluster of [n] indices. *)
Theorem deltaS_computes_new_subsets_once {SC : Scalar} {CO : Collaborators SC}
    (coocMat : matrix) (meanFieldRef : bool) (priorLmbda : scal)
    (numSamples : option Z) (independentRef : bool)
    (meanFieldPriorLmbda : option scal) (c : list Z)
    (σ : Registry) (r : scal * matrix) (σ' : Registry) :
  registry_ok coocMat meanFieldRef priorLmbda numSamples independentRef
    (default priorLmbda meanFieldPriorLmbda) σ →
  deltaS c coocMat meanFieldRef priorLmbda numSamples independentRef
    meanFieldPriorLmbda σ = (Ok r, σ') →
  ∃ new, trace σ' = new ++ trace σ ∧
    let missing :=
      filter (λ k, deltaSdict σ !! k = None) (nonempty_subsets c) in
    clusterID <$> numeric_calls new ≡ₚ missing ∧
    entropy_calls new = numeric_calls new ∧
    stores new ≡ₚ missing ∧
    (deltaSdict σ = ∅ →
     (length (numeric_calls new) + 1 = 2 ^ length c)%nat).
Proof.
  intros Hok Hrun.
  rewrite (deltaS_unfold _ _ _ _ _ (default priorLmbda meanFieldPriorLmbda))
    in Hrun by done.
  pose proof (deltaS_here_post _ _ _ _ _ _ _ _ _ _ _ Hok Hrun)
    as (Hok' & Hsub & _ & _ & HS & _ & _ & _ & _ & Hc & Hne).
  apply deltaS_here_footprint in Hrun
    as (new & Htr & Hperm & Hent & Hnd & Hk); [|done].
  exists new. split; [done|]. intros missing.
  assert (stores new ≡ₚ missing) as Hstores.
  { apply NoDup_Permutation; [done|by apply NoDup_filter, NoDup_nonempty_subsets|].
    intros k. unfold missing. rewrite list_elem_of_filter.
    rewrite (elem_of_nonempty_subsets c k Hc). split.
    - intros Hin. destruct (Hk k Hin) as (Hkc & Hnone & Hsome).
      destruct (ok_key _ _ _ _ _ _ _ Hok' k Hsome) as (? & ? & ?). done.
    - intros (Hnone & Hkne & Hknd & Hid & Hkc).
      assert (is_Some (deltaSdict σ' !! clusterID k)) as Hsome.
      { eapply (ok_closed _ _ _ _ _ _ _ Hok' (clusterID c)); [by eexists|done..|].
        intros a Ha. by apply (np_sort_elem c a), Hkc. }
      rewrite Hid in Hsome.
      apply (ok_stored _ _ _ _ _ _ _ Hok') in Hsome.
      rewrite Htr in Hsome. apply elem_of_app in Hsome as [Hin|Hin].
      + by apply elem_of_stores.
      + apply (ok_stored _ _ _ _ _ _ _ Hok) in Hin as [v Hv]. congruence. }
  split_and!; [by rewrite Hperm|done|done|].
  intros Hempty.
  assert (length (numeric_calls new) = length missing) as ->.
  { rewrite <-Hstores, <-Hperm. by rewrite length_fmap. }
  unfold missing. rewrite filter_all.
  - unfold nonempty_subsets. rewrite length_nonempty_sublists.
    by rewrite clusterID_length.
  - intros k _. by rewrite Hempty.
Qed.

Lemma deltaS_computes_new_subsets_once_witness :
  let run :=
    deltaS [2; 0; 1] ([[3; 2; 2]; [2; 3; 2]; [2; 2; 3]] : matrix)
      false 0 None true None empty_registry in
  ∃ new, trace run.2 = new ++ [] ∧
         (length (numeric_calls new) + 1 = 2 ^ 3)%nat.
Proof.
  intros run.
  destruct (deltaS_computes_new_subsets_once (SC:=Z_scalar) (CO:=stand_ins)
              [[3; 2; 2]; [2; 3; 2]; [2; 2; 3]] false 0 None true None
              [2; 0; 1] empty_registry
              (168, [[0; 0; 0]; [0; 0; 0]; [0; 0; 0]]) run.2)
    as (new & Htr & _ & _ & _ & Hcount).
  - apply registry_ok_empty.
  - vm_compute. reflexivity.
  - exists new. split; [exact Htr | exact (Hcount eq_refl)].
Defined.

